(** * Contact harvester (3.py): extraction pipeline and persistence

    A shallow embedding of [3.py] and the properties of its extraction
    pipeline.  Python [str] values are sequences of Unicode code points;
    the four regular expressions of the program are written in a small
    abstract syntax and run by a backtracking matcher with the priorities
    of Python's [re]; the SQLite table with its [AUTOINCREMENT] counter,
    the widgets, the network and the console are fields of an explicit
    world threaded through a state monad.  A call that an exception can
    leave returns its ending: [save_to_database] catches [sqlite3.Error]
    only, so the [UnicodeEncodeError] of a value that cannot be encoded
    leaves it, the transaction is rolled back, and the exception goes up
    to Tk. *)

From Stdlib Require Import String Ascii.
From stdpp Require Import base numbers option list sorting.

Local Open Scope N_scope.
Local Open Scope nat_scope.
Local Open Scope list_scope.

(** ** Python strings *)

Module Py.

(** A character is a Unicode code point; a [str] is a list of them. *)
Definition char := N.
Definition str := list char.

(** Decoding of the UTF-8 bytes of a literal of this file into code
    points, so that the literals of the source can be written as they
    are. *)
Fixpoint utf8_decode (bs : list N) : str :=
  match bs with
  | [] => []
  | b0 :: r0 =>
    if (b0 <? 0x80)%N then b0 :: utf8_decode r0
    else match r0 with
    | [] => [b0]
    | b1 :: r1 =>
      if (b0 <? 0xE0)%N
      then ((b0 - 0xC0) * 64 + (b1 - 0x80))%N :: utf8_decode r1
      else match r1 with
      | [] => [b0; b1]
      | b2 :: r2 =>
        if (b0 <? 0xF0)%N
        then ((b0 - 0xE0) * 4096 + (b1 - 0x80) * 64 + (b2 - 0x80))%N
               :: utf8_decode r2
        else match r2 with
        | [] => [b0; b1; b2]
        | b3 :: r3 =>
          ((b0 - 0xF0) * 262144 + (b1 - 0x80) * 4096
             + (b2 - 0x80) * 64 + (b3 - 0x80))%N :: utf8_decode r3
        end
      end
    end
  end.

Fixpoint bytes_of (s : string) : list N :=
  match s with
  | EmptyString => []
  | String a s' => N_of_ascii a :: bytes_of s'
  end.

Definition ustr (s : string) : str := utf8_decode (bytes_of s).

(** The double quote, which the literals below splice in. *)
Definition dq : char := 34%N.

(** [str.isspace] on one character ([Py_UNICODE_ISSPACE]); the regular
    expression class [\s] and [str.strip] both use it. *)
Definition isspace (c : char) : bool :=
  ((0x09 <=? c) && (c <=? 0x0D) || (0x1C <=? c) && (c <=? 0x20)
   || (c =? 0x85) || (c =? 0xA0) || (c =? 0x1680)
   || (0x2000 <=? c) && (c <=? 0x200A)
   || (c =? 0x2028) || (c =? 0x2029) || (c =? 0x202F) || (c =? 0x205F)
   || (c =? 0x3000))%N.

Fixpoint lstrip (s : str) : str :=
  match s with
  | c :: s' => if isspace c then lstrip s' else s
  | [] => []
  end.

Definition rstrip (s : str) : str := rev (lstrip (rev s)).

(** [s.strip()] *)
Definition strip (s : str) : str := rstrip (lstrip s).

(** [s[a:b]] for [0 <= a], [0 <= b]. *)
Definition slice (a b : nat) (s : str) : str := take (b - a) (drop a s).

(** Comparison of two [str]: lexicographic on code points, a proper
    prefix being smaller. *)
Fixpoint str_cmp (a b : str) : comparison :=
  match a, b with
  | [], [] => Eq
  | [], _ :: _ => Lt
  | _ :: _, [] => Gt
  | x :: a', y :: b' =>
    match N.compare x y with
    | Eq => str_cmp a' b'
    | c => c
    end
  end.

Definition str_lt (a b : str) : Prop := str_cmp a b = Lt.
Definition str_le (a b : str) : Prop := str_cmp a b <> Gt.

#[export] Instance str_le_dec : RelDecision str_le.
Proof. intros a b. unfold str_le. destruct (str_cmp a b); [left|left|right]; congruence. Defined.

(** [set(l)] keeps one copy of each element and [sorted] orders them with
    [<]; the order in which a Python set is traversed is not specified,
    and [sorted_canonical] below shows that the result does not depend on
    it. *)
Definition set (l : list str) : list str := remove_dups l.
Definition sorted (l : list str) : list str := merge_sort str_le l.

End Py.

Import Py.

(** ** The fragment of [re] that the program uses

    A pattern is the sequence of its items, as [sre] compiles it:
    literal text, one character of a set, a greedy or lazy repetition of
    a set, and the two marks that delimit a capturing group (group [k]
    lies between marks [2k-2] and [2k-1]).  [x+] is [x] followed by
    [x*].  The program's patterns need no alternation and repeat single
    characters only. *)

Module Re.

Inductive cset :=
| Any                                   (* [.] under [re.DOTALL] *)
| Space                                 (* [\s] *)
| OneOf (ranges : list (char * char))   (* [[...]], [(c, c)] for a single [c] *)
| NoneOf (ranges : list (char * char)). (* [[^...]] *)

Inductive greed := Greedy | Lazy.

Inductive item :=
| Lit (l : str)
| Set1 (cs : cset)
| Star (g : greed) (cs : cset)
| Mark (i : nat).

Definition pattern := list item.

Definition Plus (g : greed) (cs : cset) : pattern := [Set1 cs; Star g cs].

Definition in_ranges (rs : list (char * char)) (c : char) : bool :=
  existsb (fun r => (fst r <=? c) && (c <=? snd r))%N rs.

Definition mem (cs : cset) (c : char) : bool :=
  match cs with
  | Any => true
  | Space => isspace c
  | OneOf rs => in_ranges rs c
  | NoneOf rs => negb (in_ranges rs c)
  end.

(** Positions of the marks passed so far, latest first. *)
Definition marks := list (nat * nat).

Fixpoint mark_get (i : nat) (m : marks) : option nat :=
  match m with
  | [] => None
  | (j, p) :: m' => if Nat.eqb i j then Some p else mark_get i m'
  end.

Fixpoint strip_prefix (l s : str) : option str :=
  match l, s with
  | [], _ => Some s
  | _ :: _, [] => None
  | x :: l', y :: s' => if (x =? y)%N then strip_prefix l' s' else None
  end.

Section Loops.
Context {R : Type} (cs : cset) (k : str -> nat -> option R).

(** [x*] takes as many characters as it can and gives them back one at a
    time until the rest of the pattern matches. *)
Fixpoint star_greedy (s : str) (pos : nat) : option R :=
  match s with
  | c :: s' =>
    if mem cs c
    then match star_greedy s' (S pos) with
         | Some r => Some r
         | None => k s pos
         end
    else k s pos
  | [] => k s pos
  end.

(** [x*?] tries the rest of the pattern first and takes one more character
    only when that fails. *)
Fixpoint star_lazy (s : str) (pos : nat) : option R :=
  match k s pos with
  | Some r => Some r
  | None =>
    match s with
    | c :: s' => if mem cs c then star_lazy s' (S pos) else None
    | [] => None
    end
  end.

End Loops.

(** [exec p s pos m]: match [p] at the position [pos] of the subject,
    whose text from there on is [s]; the result is the end of the first
    match in backtracking order, with its marks. *)
Fixpoint exec (p : pattern) (s : str) (pos : nat) (m : marks)
  : option (nat * marks) :=
  match p with
  | [] => Some (pos, m)
  | Lit l :: p' =>
    match strip_prefix l s with
    | Some s' => exec p' s' (pos + length l) m
    | None => None
    end
  | Set1 cs :: p' =>
    match s with
    | c :: s' => if mem cs c then exec p' s' (S pos) m else None
    | [] => None
    end
  | Star Greedy cs :: p' => star_greedy cs (fun s' pos' => exec p' s' pos' m) s pos
  | Star Lazy cs :: p' => star_lazy cs (fun s' pos' => exec p' s' pos' m) s pos
  | Mark i :: p' => exec p' s pos ((i, pos) :: m)
  end.

(** A match object: [span()] and the marks. *)
Record Match := { m_start : nat; m_end : nat; m_marks : marks }.

Fixpoint search_from (p : pattern) (s : str) (pos : nat) : option Match :=
  match exec p s pos [] with
  | Some (e, m) => Some {| m_start := pos; m_end := e; m_marks := m |}
  | None =>
    match s with
    | [] => None
    | _ :: s' => search_from p s' (S pos)
    end
  end.

(** [re.search(p, text)] *)
Definition search (p : pattern) (text : str) : option Match :=
  search_from p text 0.

(** [mo.group(0)] and [mo.group(k)] for [k >= 1], on the subject [text].
    In the patterns of the program the group is not optional, so both of
    its marks are set in every match ([exec_name], [exec_title]); an
    unset mark reads as position 0 here. *)
Definition group0 (text : str) (mo : Match) : str :=
  slice (m_start mo) (m_end mo) text.

Definition group (k : nat) (text : str) (mo : Match) : str :=
  slice (default 0 (mark_get (2 * k - 2) (m_marks mo)))
        (default 0 (mark_get (2 * k - 1) (m_marks mo))) text.

Definition has_group (p : pattern) : bool :=
  existsb (fun i => match i with Mark _ => true | _ => false end) p.

(** [re.findall(p, text)] for a pattern with at most one group: the
    matches from left to right, each search starting where the previous
    match ended.  [skip] counts the characters of the last match still to
    be passed.  After an empty match the scan moves on by one character;
    no pattern of the program matches the empty string
    ([exec_email_progress], [exec_block_progress]). *)
Fixpoint findall_from (p : pattern) (text s : str) (pos skip : nat) : list str :=
  match skip with
  | S skip' =>
    match s with
    | [] => []
    | _ :: s' => findall_from p text s' (S pos) skip'
    end
  | 0 =>
    match exec p s pos [] with
    | Some (e, m) =>
      let mo := {| m_start := pos; m_end := e; m_marks := m |} in
      (if has_group p then group 1 text mo else group0 text mo)
        :: match s with
           | [] => []
           | _ :: s' => findall_from p text s' (S pos) (e - pos - 1)
           end
    | None =>
      match s with
      | [] => []
      | _ :: s' => findall_from p text s' (S pos) 0
      end
    end
  end.

Definition findall (p : pattern) (text : str) : list str :=
  findall_from p text text 0 0.

End Re.

Import Re.

(** ** The program *)

Definition rng (a b : ascii) : char * char := (N_of_ascii a, N_of_ascii b).
Definition one (a : ascii) : char * char := rng a a.

(** [<div class="c">] *)
Definition div_class (c : string) : str :=
  ustr "<div class=" ++ dq :: ustr c ++ dq :: ustr ">".

(** The sentinel ["未知"]. *)
Definition unknown : str := ustr "未知".

(** [r'[a-zA-Z0-9._%+-]+@ncut\.edu\.tw'] *)
Definition local_chars : cset :=
  OneOf [rng "a" "z"; rng "A" "Z"; rng "0" "9";
         one "."; one "_"; one "%"; one "+"; one "-"].
Definition domain : str := ustr "@ncut.edu.tw".
Definition email_pattern : pattern :=
  Plus Greedy local_chars ++ [Lit domain].

(** [r'<div class="teacher-list">.*?</div>\s*</div>'], with [re.DOTALL] *)
Definition block_pattern : pattern :=
  [Lit (div_class "teacher-list"); Star Lazy Any; Lit (ustr "</div>");
   Star Greedy Space; Lit (ustr "</div>")].

(** [r'<div class="member_name">.*?<a[^>]*>(.*?)</a>'], with [re.DOTALL] *)
Definition name_pattern : pattern :=
  [Lit (div_class "member_name"); Star Lazy Any; Lit (ustr "<a");
   Star Greedy (NoneOf [one ">"]); Lit (ustr ">");
   Mark 0; Star Lazy Any; Mark 1; Lit (ustr "</a>")].

(** [r'<div class="member_info_title">.*?職稱.*?</div>\s*<div class="member_info_content">(.*?)</div>'],
    with [re.DOTALL] *)
Definition title_pattern : pattern :=
  [Lit (div_class "member_info_title"); Star Lazy Any; Lit (ustr "職稱");
   Star Lazy Any; Lit (ustr "</div>"); Star Greedy Space;
   Lit (div_class "member_info_content");
   Mark 0; Star Lazy Any; Mark 1; Lit (ustr "</div>")].

(** The dictionary [{"name": .., "title": .., "email": ..}]. *)
Record Contact := { name : str; title : str; email : str }.

(** *** The outside world *)

Inductive exn :=
| RequestException (msg : str)   (* raised by [requests.get] *)
| HTTPError (status : nat)       (* raised by [raise_for_status] *)
| sqlite3_Error (msg : str)
| UnicodeEncodeError.            (* raised when a [str] is encoded *)

(** How a call that returns no value ends: it returns, or an exception
    leaves it. *)
Inductive ending := Returns | Raises (e : exn).

Record Response := { status_code : nat; text : str }.

Inductive reply := Reply (r : Response) | Raise (msg : str).

(** An f-string with one exception formatted into it. *)
Definition fstring : Type := str * option exn.

(** A row of the table [contacts]. *)
Record Row := { iid : nat; r_name : str; r_title : str; r_email : str }.

Record World := {
  url_entry : str;                  (* the text of the entry widget *)
  remote : nat -> str -> reply;     (* what the n-th HTTP request gets *)
  requests_log : list str;          (* the requests made so far *)
  database : option (list Row);     (* contacts.db: the table, if it exists *)
  sqlite_sequence : nat;            (* contacts.db: the largest [iid] taken *)
  tree : list (str * str * str);    (* the rows of the Treeview *)
  dialogs : list (str * fstring);   (* [messagebox.showerror] calls *)
  stdout : list fstring;            (* [print] calls *)
  stderr : list exn                 (* the tracebacks written by Tk *)
}.

Definition M (A : Type) : Type := World -> A * World.

#[export] Instance M_ret : MRet M := fun A a w => (a, w).
#[export] Instance M_bind : MBind M :=
  fun A B f m w => let '(a, w') := m w in f a w'.

Definition url_entry_get : M str := fun w => (url_entry w, w).

Definition requests_get (url : str) : M reply := fun w =>
  (remote w (length (requests_log w)) url,
   {| url_entry := url_entry w; remote := remote w;
      requests_log := requests_log w ++ [url];
      database := database w; sqlite_sequence := sqlite_sequence w;
      tree := tree w; dialogs := dialogs w; stdout := stdout w;
      stderr := stderr w |}).

Definition showerror (ttl : str) (msg : fstring) : M unit := fun w =>
  (tt, {| url_entry := url_entry w; remote := remote w;
          requests_log := requests_log w; database := database w;
          sqlite_sequence := sqlite_sequence w;
          tree := tree w; dialogs := dialogs w ++ [(ttl, msg)];
          stdout := stdout w; stderr := stderr w |}).

Definition print (msg : fstring) : M unit := fun w =>
  (tt, {| url_entry := url_entry w; remote := remote w;
          requests_log := requests_log w; database := database w;
          sqlite_sequence := sqlite_sequence w;
          tree := tree w; dialogs := dialogs w;
          stdout := stdout w ++ [msg]; stderr := stderr w |}).

Definition get_database : M (option (list Row)) := fun w => (database w, w).

Definition put_database (d : option (list Row)) : M unit := fun w =>
  (tt, {| url_entry := url_entry w; remote := remote w;
          requests_log := requests_log w; database := d;
          sqlite_sequence := sqlite_sequence w;
          tree := tree w; dialogs := dialogs w; stdout := stdout w;
          stderr := stderr w |}).

Definition get_sqlite_sequence : M nat := fun w => (sqlite_sequence w, w).

Definition put_sqlite_sequence (seq : nat) : M unit := fun w =>
  (tt, {| url_entry := url_entry w; remote := remote w;
          requests_log := requests_log w; database := database w;
          sqlite_sequence := seq;
          tree := tree w; dialogs := dialogs w; stdout := stdout w;
          stderr := stderr w |}).

Definition put_tree (t : list (str * str * str)) : M unit := fun w =>
  (tt, {| url_entry := url_entry w; remote := remote w;
          requests_log := requests_log w; database := database w;
          sqlite_sequence := sqlite_sequence w;
          tree := t; dialogs := dialogs w; stdout := stdout w;
          stderr := stderr w |}).

(** [response.raise_for_status()] *)
Definition raise_for_status (r : Response) : option exn :=
  if (400 <=? status_code r) && (status_code r <? 600)
  then Some (HTTPError (status_code r)) else None.

(** *** The table *)

(** [CREATE TABLE IF NOT EXISTS contacts (...)] *)
Definition create_database : M unit :=
  d ← get_database;
  match d with
  | Some _ => mret tt
  | None => put_database (Some [])
  end.

(** The code points that UTF-8 does not encode: the surrogates, U+D800
    to U+DFFF.  [sqlite3] encodes the values that it binds to a
    statement. *)
Definition surrogate (c : char) : bool :=
  ((55296 <=? c) && (c <=? 57343))%N.

Definition encodable (s : str) : bool :=
  forallb (fun c => negb (surrogate c)) s.

(** The values of [:name], [:title] and [:email] can be bound. *)
Definition storable (c : Contact) : bool :=
  encodable (name c) && encodable (title c) && encodable (email c).

(** [iid INTEGER PRIMARY KEY AUTOINCREMENT]: an insert takes the number
    behind the largest [iid] that was taken before or stands in the
    table.  (The table is one that the program fills: its numbers stay
    below the largest rowid of SQLite.) *)
Definition next_iid (rows : list Row) (seq : nat) : nat :=
  S (Nat.max seq (foldr Nat.max 0 (fmap iid rows))).

(** [cursor.execute("INSERT OR IGNORE INTO contacts (name, title, email)
    VALUES (:name, :title, :email)", contact)]: the statement is compiled
    (there must be a table), the three values are bound (they must be
    encodable), an [iid] is taken, and the row is stored unless a row with
    its [email], which is [UNIQUE], is stored already; the [iid] stays
    taken when the row is ignored.  The result is the table and the
    counter of [sqlite_sequence]. *)
Definition insert_or_ignore (c : Contact) (d : option (list Row)) (seq : nat)
  : exn + list Row * nat :=
  match d with
  | None => inl (sqlite3_Error (ustr "no such table: contacts"))
  | Some rows =>
    if storable c then
      let i := next_iid rows seq in
      if bool_decide (email c ∈ fmap r_email rows) then inr (rows, i)
      else inr (rows ++ [{| iid := i; r_name := name c;
                            r_title := title c; r_email := email c |}], i)
    else inl UnicodeEncodeError
  end.

(** The loop of [save_to_database]: an [sqlite3.Error] is printed and
    the loop goes on, any other exception leaves it. *)
Fixpoint save_loop (contacts : list Contact) : M ending :=
  match contacts with
  | [] => mret Returns
  | contact :: rest =>
    d ← get_database;
    seq ← get_sqlite_sequence;
    match insert_or_ignore contact d seq with
    | inr (rows, seq') =>
      put_database (Some rows);; put_sqlite_sequence seq';; save_loop rest
    | inl (sqlite3_Error msg) =>
      print (ustr "資料庫錯誤: ", Some (sqlite3_Error msg));; save_loop rest
    | inl e => mret (Raises e)
    end
  end.

(** [with sqlite3.connect(DATABASE_NAME) as conn]: the inserts of the
    loop are committed when it ends, and rolled back when an exception
    leaves it. *)
Definition save_to_database (contacts : list Contact) : M ending :=
  d ← get_database;
  seq ← get_sqlite_sequence;
  r ← save_loop contacts;
  match r with
  | Returns => mret Returns
  | Raises e => put_database d;; put_sqlite_sequence seq;; mret (Raises e)
  end.

(** *** Extraction *)

(** Lines 62 to 66 of [fetch_emails_from_ncut]. *)
Definition unique_emails (content : str) : list str :=
  let emails := findall email_pattern content in
  sorted (set emails).

Definition fetch_emails_from_ncut (url : str) : M (list str) :=
  r ← requests_get url;
  match r with
  | Raise msg =>
    print (ustr "Error fetching the URL: ", Some (RequestException msg));;
    mret []
  | Reply response =>
    match raise_for_status response with
    | Some e => print (ustr "Error fetching the URL: ", Some e);; mret []
    | None => mret (unique_emails (text response))
    end
  end.

(** The name and the title that one block yields. *)
Definition block_name (block : str) : str :=
  match search name_pattern block with
  | Some name_match => strip (group 1 block name_match)
  | None => unknown
  end.

Definition block_title (block : str) : str :=
  match search title_pattern block with
  | Some title_match => strip (group 1 block title_match)
  | None => unknown
  end.

(** The body of the loop over [teacher_blocks], with its two variables
    [contacts] and [email_index]. *)
Fixpoint extract_loop (emails : list str) (teacher_blocks : list str)
    (contacts : list Contact) (email_index : nat) : list Contact :=
  match teacher_blocks with
  | [] => contacts
  | block :: rest =>
    let name := block_name block in
    let title := block_title block in
    let email :=
      if bool_decide (email_index < length emails)
      then default unknown (emails !! email_index)
      else unknown in
    extract_loop emails rest
      (contacts ++ [{| name := name; title := title; email := email |}])
      (email_index + 1)
  end.

Definition teacher_blocks (html : str) : list str :=
  findall block_pattern html.

Definition extract_contacts (html : str) (emails : list str) : list Contact :=
  extract_loop emails (teacher_blocks html) [] 0.

(** *** Display and orchestration *)

Definition display_contacts (contacts : list Contact) : M unit :=
  put_tree (fmap (fun contact => (name contact, title contact, email contact))
                contacts).

Definition fetch_html (url : str) : M str :=
  r ← requests_get url;
  match r with
  | Raise msg =>
    showerror (ustr "錯誤")
              (ustr "無法獲取網頁內容: ", Some (RequestException msg));;
    mret []
  | Reply response =>
    match raise_for_status response with
    | Some e =>
      showerror (ustr "錯誤") (ustr "無法獲取網頁內容: ", Some e);; mret []
    | None => mret (text response)
    end
  end.

(** Lines 133 and 134 of [fetch_and_display]: an exception that leaves
    [save_to_database] leaves [fetch_and_display] too. *)
Definition save_and_display (contacts : list Contact) : M ending :=
  r ← save_to_database contacts;
  match r with
  | Returns => display_contacts contacts;; mret Returns
  | Raises e => mret (Raises e)
  end.

Definition fetch_and_display : M ending :=
  url ← url_entry_get;
  if bool_decide (url = [])
  then showerror (ustr "錯誤") (ustr "請輸入有效的 URL！", None);; mret Returns
  else
    html ← fetch_html url;
    if bool_decide (html = []) then mret Returns
    else
      emails ← fetch_emails_from_ncut url;
      let contacts := extract_contacts html emails in
      save_and_display contacts.

(** The world after a click on the button. *)
Definition click (w : World) : World := snd (fetch_and_display w).

(** *** The main window *)

(** What the user does while [root.mainloop()] runs: typing an address
    into the entry, pressing the button. *)
Inductive event := Edit (s : str) | Press.

Definition put_url_entry (s : str) : M unit := fun w =>
  (tt, {| url_entry := s; remote := remote w;
          requests_log := requests_log w; database := database w;
          sqlite_sequence := sqlite_sequence w;
          tree := tree w; dialogs := dialogs w; stdout := stdout w;
          stderr := stderr w |}).

(** An exception that leaves a callback is caught by Tk, which writes
    its traceback on [stderr]; the loop goes on. *)
Definition report_callback_exception (e : exn) : M unit := fun w =>
  (tt, {| url_entry := url_entry w; remote := remote w;
          requests_log := requests_log w; database := database w;
          sqlite_sequence := sqlite_sequence w;
          tree := tree w; dialogs := dialogs w; stdout := stdout w;
          stderr := stderr w ++ [e] |}).

(** The button is bound to [fetch_and_display]; the entry is edited by
    Tk itself. *)
Definition handle (ev : event) : M unit :=
  match ev with
  | Edit s => put_url_entry s
  | Press =>
    r ← fetch_and_display;
    match r with
    | Returns => mret tt
    | Raises e => report_callback_exception e
    end
  end.

Fixpoint mainloop (events : list event) : M unit :=
  match events with
  | [] => mret tt
  | ev :: rest => handle ev;; mainloop rest
  end.

(** [main()]: the table is created, then the widgets (an empty entry, a
    Treeview without rows), then the events are served until the window
    is closed. *)
Definition main (events : list event) : M unit :=
  create_database;;
  put_url_entry [];;
  put_tree [];;
  mainloop events.

(** ** Vocabulary of the statements *)

(** [matches p w pos m m']: the pattern [p] matches exactly the text [w],
    read from position [pos] on with the marks [m], and leaves the marks
    [m'].  It says which texts a pattern accepts, not which of them the
    matcher finds first. *)
Inductive matches : pattern -> str -> nat -> marks -> marks -> Prop :=
| matches_nil pos m : matches [] [] pos m m
| matches_lit l p w pos m m' :
    matches p w (pos + length l) m m' ->
    matches (Lit l :: p) (l ++ w) pos m m'
| matches_set cs c p w pos m m' :
    mem cs c = true ->
    matches p w (S pos) m m' ->
    matches (Set1 cs :: p) (c :: w) pos m m'
| matches_star g cs a p w pos m m' :
    Forall (fun c => mem cs c = true) a ->
    matches p w (pos + length a) m m' ->
    matches (Star g cs :: p) (a ++ w) pos m m'
| matches_mark i p w pos m m' :
    matches p w pos ((i, pos) :: m) m' ->
    matches (Mark i :: p) w pos m m'.

(** [e] occurs in [text]. *)
Definition occurs (e text : str) : Prop :=
  exists pre post, text = pre ++ e ++ post.

(** An address of the institution: a non-empty local part of allowed
    characters, then the domain. *)
Definition address (e : str) : Prop :=
  exists local,
    e = local ++ domain /\ local <> [] /\
    Forall (fun c => mem local_chars c = true) local.

Definition starts_address (s : str) : Prop :=
  exists e rest, address e /\ s = e ++ rest.

(** The addresses that a scan of the text from left to right finds: where
    an address starts it is taken whole and the scan goes on behind it,
    elsewhere the scan moves on by one character. *)
Inductive address_scan : str -> list str -> Prop :=
| scan_end : address_scan [] []
| scan_take e rest found :
    address e -> address_scan rest found ->
    address_scan (e ++ rest) (e :: found)
| scan_skip c s found :
    ~ starts_address (c :: s) -> address_scan s found ->
    address_scan (c :: s) found.

(** The parts of the name pattern and of the title pattern behind their
    lazy repetitions. *)
Definition link_pattern : pattern :=
  [Lit (ustr "<a"); Star Greedy (NoneOf [one ">"]); Lit (ustr ">");
   Mark 0; Star Lazy Any; Mark 1; Lit (ustr "</a>")].

Definition content_pattern : pattern :=
  [Lit (ustr "</div>"); Star Greedy Space;
   Lit (div_class "member_info_content");
   Mark 0; Star Lazy Any; Mark 1; Lit (ustr "</div>")].

Definition label_pattern : pattern :=
  Lit (ustr "職稱") :: Star Lazy Any :: content_pattern.

(** [s] starts with [closing]. *)
Definition starts_with (closing s : str) : Prop :=
  exists post, s = closing ++ post.

(** [s] starts with a link: [<a], attributes without [>], [>], the text
    [inner], and the closing tag. *)
Definition link_at (s attrs inner post : str) : Prop :=
  s = ustr "<a" ++ attrs ++ ustr ">" ++ inner ++ ustr "</a>" ++ post /\
  Forall (fun c => c <> N_of_ascii ">") attrs.

(** The block holds a name container, later a link, and the link's
    closing tag: [inner] is the text of the link. *)
Definition name_link (block pre mid attrs inner post : str) : Prop :=
  block = pre ++ div_class "member_name" ++ mid ++ ustr "<a" ++ attrs
              ++ ustr ">" ++ inner ++ ustr "</a>" ++ post /\
  Forall (fun c => c <> N_of_ascii ">") attrs.

Definition has_name_link (block : str) : Prop :=
  exists pre mid attrs inner post, name_link block pre mid attrs inner post.

(** The name link that [re.search] finds: the name container is the
    first of the block that has a link behind it, the link is the first
    behind the container, and its text ends at the first closing tag. *)
Definition first_name_link (block pre mid attrs inner post : str) : Prop :=
  name_link block pre mid attrs inner post /\
  (forall i, i < length pre ->
     ~ exists mid' attrs' inner' post',
         name_link (drop i block) [] mid' attrs' inner' post') /\
  (forall j, j < length mid ->
     ~ exists attrs' inner' post',
         link_at (drop j (mid ++ ustr "<a" ++ attrs ++ ustr ">" ++ inner
                             ++ ustr "</a>" ++ post)) attrs' inner' post') /\
  (forall j, j < length inner ->
     ~ starts_with (ustr "</a>") (drop j (inner ++ ustr "</a>" ++ post))).

(** [s] starts with the closing tag of the label container, white space,
    and a content container with the text [inner]. *)
Definition content_at (s ws inner post : str) : Prop :=
  s = ustr "</div>" ++ ws ++ div_class "member_info_content" ++ inner
        ++ ustr "</div>" ++ post /\
  Forall (fun c => isspace c = true) ws.

(** [s] starts with the label, and a content container follows. *)
Definition label_at (s m2 ws inner post : str) : Prop :=
  s = ustr "職稱" ++ m2 ++ ustr "</div>" ++ ws
        ++ div_class "member_info_content" ++ inner ++ ustr "</div>" ++ post /\
  Forall (fun c => isspace c = true) ws.

(** The block holds an info-label container with the label, its closing
    tag, white space, and a content container: [inner] is its text. *)
Definition title_field (block pre m1 m2 ws inner post : str) : Prop :=
  block = pre ++ div_class "member_info_title" ++ m1 ++ ustr "職稱" ++ m2
              ++ ustr "</div>" ++ ws ++ div_class "member_info_content"
              ++ inner ++ ustr "</div>" ++ post /\
  Forall (fun c => isspace c = true) ws.

Definition has_title_field (block : str) : Prop :=
  exists pre m1 m2 ws inner post, title_field block pre m1 m2 ws inner post.

(** The title field that [re.search] finds: the first label container
    with a label and a content container behind it, the first such label,
    the first closing tag behind it that a content container follows, and
    the text of the content container up to its first closing tag. *)
Definition first_title_field (block pre m1 m2 ws inner post : str) : Prop :=
  title_field block pre m1 m2 ws inner post /\
  (forall i, i < length pre ->
     ~ exists m1' m2' ws' inner' post',
         title_field (drop i block) [] m1' m2' ws' inner' post') /\
  (forall j, j < length m1 ->
     ~ exists m2' ws' inner' post',
         label_at (drop j (m1 ++ ustr "職稱" ++ m2 ++ ustr "</div>" ++ ws
                              ++ div_class "member_info_content" ++ inner
                              ++ ustr "</div>" ++ post)) m2' ws' inner' post') /\
  (forall j, j < length m2 ->
     ~ exists ws' inner' post',
         content_at (drop j (m2 ++ ustr "</div>" ++ ws
                                ++ div_class "member_info_content" ++ inner
                                ++ ustr "</div>" ++ post)) ws' inner' post') /\
  (forall j, j < length inner ->
     ~ starts_with (ustr "</div>") (drop j (inner ++ ustr "</div>" ++ post))).

(** The contact that the block at index [i] yields. *)
Definition contact_of (emails : list str) (i : nat) (block : str) : Contact :=
  {| name := block_name block; title := block_title block;
     email := default unknown (emails !! i) |}.

(** What a contact and a row show. *)
Definition fields (c : Contact) : str * str * str := (name c, title c, email c).
Definition row_fields (r : Row) : str * str * str :=
  (r_name r, r_title r, r_email r).

(** What the rows of the table show (nothing without the table). *)
Definition stored_fields (w : World) : list (str * str * str) :=
  match database w with
  | Some rows => row_fields <$> rows
  | None => []
  end.

(** The e-mails of the stored rows. *)
Definition stored_emails (rows : list Row) : list str := fmap r_email rows.

(** The exception, if any, with which a fetch ends. *)
Definition fetch_error (r : reply) : option exn :=
  match r with
  | Raise msg => Some (RequestException msg)
  | Reply response => raise_for_status response
  end.

(** The text that a successful fetch returns. *)
Definition fetch_text (r : reply) : str :=
  match r with
  | Raise _ => []
  | Reply response => text response
  end.

(** The world with requests, a dialog or prints added. *)
Definition with_log (w : World) (urls : list str) : World :=
  {| url_entry := url_entry w; remote := remote w;
     requests_log := requests_log w ++ urls; database := database w;
     sqlite_sequence := sqlite_sequence w;
     tree := tree w; dialogs := dialogs w; stdout := stdout w;
     stderr := stderr w |}.

Definition with_dialog (w : World) (d : str * fstring) : World :=
  {| url_entry := url_entry w; remote := remote w;
     requests_log := requests_log w; database := database w;
     sqlite_sequence := sqlite_sequence w;
     tree := tree w; dialogs := dialogs w ++ [d]; stdout := stdout w;
     stderr := stderr w |}.

Definition with_print (w : World) (msgs : list fstring) : World :=
  {| url_entry := url_entry w; remote := remote w;
     requests_log := requests_log w; database := database w;
     sqlite_sequence := sqlite_sequence w;
     tree := tree w; dialogs := dialogs w; stdout := stdout w ++ msgs;
     stderr := stderr w |}.

(** The world with another table and counter, with other rows in the
    Treeview. *)
Definition with_table (w : World) (t : list Row * nat) : World :=
  {| url_entry := url_entry w; remote := remote w;
     requests_log := requests_log w; database := Some (fst t);
     sqlite_sequence := snd t;
     tree := tree w; dialogs := dialogs w; stdout := stdout w;
     stderr := stderr w |}.

Definition with_tree (w : World) (t : list (str * str * str)) : World :=
  {| url_entry := url_entry w; remote := remote w;
     requests_log := requests_log w; database := database w;
     sqlite_sequence := sqlite_sequence w;
     tree := t; dialogs := dialogs w; stdout := stdout w;
     stderr := stderr w |}.

(** The world in which the contacts of a page are saved: two requests
    were made, and a failure of the second was printed. *)
Definition after_fetches (w : World) : World :=
  with_log
    match fetch_error (remote w (S (length (requests_log w))) (url_entry w)) with
    | Some e =>
      with_print (with_log w [url_entry w])
                 [(ustr "Error fetching the URL: ", Some e)]
    | None => with_log w [url_entry w]
    end [url_entry w].

#[global] Arguments after_fetches : simpl never.

(** What the insert of a contact that can be stored makes of the table
    and the counter, and what the inserts of a batch make of them. *)
Definition inserted (c : Contact) (t : list Row * nat) : list Row * nat :=
  let i := next_iid (fst t) (snd t) in
  (if bool_decide (email c ∈ stored_emails (fst t)) then fst t
   else fst t ++ [{| iid := i; r_name := name c; r_title := title c;
                     r_email := email c |}],
   i).

Definition insert_all (contacts : list Contact) (t : list Row * nat)
  : list Row * nat :=
  foldl (fun t c => inserted c t) t contacts.

(** The line that is printed for an insert without the table. *)
Definition no_such_table : fstring :=
  (ustr "資料庫錯誤: ", Some (sqlite3_Error (ustr "no such table: contacts"))).

(** [s] holds no surrogate code point (U+D800 to U+DFFF, which stand for
    nothing by themselves and have no UTF-8 encoding). *)
Definition no_surrogate (s : str) : Prop :=
  Forall (fun c => (c < 55296)%N \/ (57343 < c)%N) s.

(** No name, title or e-mail of the batch holds a surrogate. *)
Definition all_encodable (contacts : list Contact) : Prop :=
  Forall (fun c => no_surrogate (name c) /\ no_surrogate (title c) /\
                   no_surrogate (email c)) contacts.

(** [t] is [s] without the white space at its two ends. *)
Definition trimmed (s t : str) : Prop :=
  exists l r : str,
    s = l ++ t ++ r /\
    Forall (fun c => isspace c = true) l /\
    Forall (fun c => isspace c = true) r /\
    (forall c u, t = c :: u -> isspace c = false) /\
    (forall c u, t = u ++ [c] -> isspace c = false).

(** *** Blocks, tables, sessions *)

(** The part of the block pattern behind its lazy repetition. *)
Definition closing_pattern : pattern :=
  [Lit (ustr "</div>"); Star Greedy Space; Lit (ustr "</div>")].

(** [s] starts with two closing tags with white space between them. *)
Definition closing_at (s ws post : str) : Prop :=
  s = ustr "</div>" ++ ws ++ ustr "</div>" ++ post /\
  Forall (fun c => isspace c = true) ws.

(** [b] is a teacher-list container up to two closing tags. *)
Definition block_shape (b : str) : Prop :=
  exists mid ws,
    b = div_class "teacher-list" ++ mid ++ ustr "</div>" ++ ws ++ ustr "</div>"
    /\ Forall (fun c => isspace c = true) ws.

Definition starts_block (s : str) : Prop :=
  exists b rest, s = b ++ rest /\ block_shape b.

(** [b] is the block that starts the text [b ++ rest]: it ends at the
    first pair of closing tags behind the container. *)
Definition block_at (b rest : str) : Prop :=
  exists mid ws,
    b = div_class "teacher-list" ++ mid ++ ustr "</div>" ++ ws ++ ustr "</div>"
    /\ Forall (fun c => isspace c = true) ws
    /\ forall j, j < length mid ->
         ~ exists ws' post',
             closing_at (drop j (mid ++ ustr "</div>" ++ ws ++ ustr "</div>"
                                    ++ rest)) ws' post'.

(** The blocks that a scan of the page from left to right finds. *)
Inductive block_scan : str -> list str -> Prop :=
| bscan_end : block_scan [] []
| bscan_take b rest found :
    block_at b rest -> block_scan rest found ->
    block_scan (b ++ rest) (b :: found)
| bscan_skip c s found :
    ~ starts_block (c :: s) -> block_scan s found ->
    block_scan (c :: s) found.

(** A table as SQLite keeps it: no e-mail and no [iid] twice. *)
Definition table_ok (d : option (list Row)) : Prop :=
  match d with
  | Some rows => NoDup (stored_emails rows) /\ NoDup (iid <$> rows)
  | None => True
  end.

(** The number of times the button is pressed. *)
Fixpoint presses (events : list event) : nat :=
  match events with
  | [] => 0
  | Press :: rest => S (presses rest)
  | Edit _ :: rest => presses rest
  end.

(** *** Sample inputs *)

(** One directory entry in the markup that the patterns expect. *)
Definition entry (n t : string) : str :=
  div_class "teacher-list" ++ div_class "member_name" ++ ustr "<a>" ++ ustr n
    ++ ustr "</a></div>" ++ div_class "member_info_title" ++ ustr "職稱</div>"
    ++ div_class "member_info_content" ++ ustr t ++ ustr "</div></div>".

(** An entry without name container. *)
Definition nameless_entry (t : string) : str :=
  div_class "teacher-list" ++ div_class "member_info_title"
    ++ ustr "職稱</div>" ++ div_class "member_info_content" ++ ustr t
    ++ ustr "</div></div>".

Definition ok (content : str) : reply :=
  Reply {| status_code := 200; text := content |}.

(** The world of a first start: [main] has called [create_database] where
    there was no table, nothing is displayed; [url] is typed in and the
    network answers [net]. *)
Definition fresh_world (url : str) (net : nat -> str -> reply) : World :=
  snd (create_database
         {| url_entry := url; remote := net; requests_log := [];
            database := None; sqlite_sequence := 0; tree := [];
            dialogs := []; stdout := []; stderr := [] |}).

(** The same page at every request. *)
Definition steady (content : str) : nat -> str -> reply :=
  fun _ _ => ok content.



Definition jane_page : str :=
  entry "Jane Doe" "Professor" ++ ustr "jane@ncut.edu.tw".

Definition two_entries : str := entry "Ann" "Dean" ++ entry "Bob" "Lecturer".

(** A table that already holds Ann's row. *)
Definition ann_stored : list Row :=
  [{| iid := 1; r_name := ustr "Ann"; r_title := ustr "Dean";
      r_email := ustr "ann@ncut.edu.tw" |}].

Definition three_entries : str := two_entries ++ entry "Cy" "Clerk".

(** A disk without [contacts.db]. *)
Definition bare_world (url : str) (net : nat -> str -> reply) : World :=
  {| url_entry := url; remote := net; requests_log := [];
     database := None; sqlite_sequence := 0; tree := []; dialogs := [];
     stdout := []; stderr := [] |}.


(** Two contacts with Ann's e-mail and different names. *)
Definition ann : Contact :=
  {| name := ustr "Ann"; title := ustr "Dean";
     email := ustr "ann@ncut.edu.tw" |}.
Definition anna : Contact :=
  {| name := ustr "Anna"; title := ustr "Rector";
     email := ustr "ann@ncut.edu.tw" |}.

Definition bob : Contact :=
  {| name := ustr "Bob"; title := ustr "Lecturer";
     email := ustr "bob@ncut.edu.tw" |}.

(** Jane's page at the first four requests, then John's. *)
Definition then_john : nat -> str -> reply :=
  fun n _ => if n <? 4 then ok jane_page
             else ok (entry "John" "Dean" ++ ustr "john@ncut.edu.tw").

(** A contact whose name is a lone surrogate, and a page with an entry
    of that name. *)
Definition lone_surrogate : Contact :=
  {| name := [55296%N]; title := ustr "Clerk";
     email := ustr "cy@ncut.edu.tw" |}.

Definition broken_page : str :=
  div_class "teacher-list" ++ div_class "member_name" ++ ustr "<a>"
    ++ [55296%N] ++ ustr "</a></div></div>".

(** An entry whose texts stand between blanks. *)
Definition padded_entry : str := entry "  Jane Doe " " Professor  ".

Ltac invert_matches :=
  repeat match goal with
  | H : matches (_ :: _) _ _ _ _ |- _ => inversion H; subst; clear H
  | H : matches [] _ _ _ _ |- _ => inversion H; subst; clear H
  end.

(** ** Strings: comparison, sorting *)

Lemma str_cmp_refl a : str_cmp a a = Eq.
Proof. induction a as [|x a IH]; simpl; [done|]. by rewrite N.compare_refl. Qed.

Lemma str_cmp_eq a b : str_cmp a b = Eq -> a = b.
Proof.
  revert b; induction a as [|x a IH]; intros [|y b]; simpl; try done.
  destruct (N.compare_spec x y) as [->| |]; try done.
  intros H. by rewrite (IH _ H).
Qed.

Lemma str_cmp_opp a b : str_cmp b a = CompOpp (str_cmp a b).
Proof.
  revert b; induction a as [|x a IH]; intros [|y b]; simpl; try done.
  rewrite (N.compare_antisym x y).
  destruct (N.compare x y); simpl; auto.
Qed.

Lemma str_cmp_lt_trans a b c :
  str_cmp a b = Lt -> str_cmp b c = Lt -> str_cmp a c = Lt.
Proof.
  revert b c; induction a as [|x a IH]; intros [|y b] [|z c]; simpl; try done.
  destruct (N.compare_spec x y) as [->|Hxy|Hxy]; try done.
  - destruct (N.compare_spec y z) as [->|Hyz|Hyz]; try done. apply IH.
  - destruct (N.compare_spec y z) as [->|Hyz|Hyz]; try done.
    + intros _ _. destruct (N.compare_spec x z); [lia|done|lia].
    + intros _ _. destruct (N.compare_spec x z); [lia|done|lia].
Qed.

Lemma str_lt_trans : Transitive str_lt.
Proof. intros a b c. apply str_cmp_lt_trans. Qed.

#[local] Existing Instance str_lt_trans.

Lemma str_lt_irrefl a : ~ str_lt a a.
Proof. unfold str_lt. by rewrite str_cmp_refl. Qed.

Lemma str_le_lt_or_eq a b : str_le a b <-> str_lt a b \/ a = b.
Proof.
  unfold str_le, str_lt. split.
  - destruct (str_cmp a b) eqn:E; [right; by apply str_cmp_eq|by left|done].
  - intros [->| ->]; [done|]. by rewrite str_cmp_refl.
Qed.

Lemma str_le_trans : Transitive str_le.
Proof.
  intros a b c. rewrite !str_le_lt_or_eq.
  intros [H1| ->] [H2| ->]; eauto. left. by transitivity b.
Qed.

Lemma str_le_total : Total str_le.
Proof.
  intros a b. unfold str_le. rewrite (str_cmp_opp a b).
  destruct (str_cmp a b); simpl; auto.
Qed.

#[local] Existing Instance str_le_trans.
#[local] Existing Instance str_le_total.

Lemma sorted_perm l : sorted l ≡ₚ l.
Proof. apply merge_sort_Permutation. Qed.

Lemma sorted_strongly l : StronglySorted str_le (sorted l).
Proof. apply StronglySorted_merge_sort; apply _. Qed.

(** A sorted list without repetition is strictly ascending. *)
Lemma strictly_ascending l :
  StronglySorted str_le l -> NoDup l -> StronglySorted str_lt l.
Proof.
  induction 1 as [|x l Hs IH Hx]; intros Hnd; [constructor|].
  apply NoDup_cons in Hnd as [Hin Hnd]. constructor; [auto|].
  apply Forall_forall. intros y Hy.
  rewrite Forall_forall in Hx. apply Hx in Hy as Hle.
  apply str_le_lt_or_eq in Hle as [?| ->]; done.
Qed.

Lemma sorted_set_ascending l : StronglySorted str_lt (sorted (set l)).
Proof.
  apply strictly_ascending; [apply sorted_strongly|].
  unfold sorted. rewrite merge_sort_Permutation. apply NoDup_remove_dups.
Qed.

Lemma elem_of_sorted_set l e : e ∈ sorted (set l) <-> e ∈ l.
Proof. unfold sorted, set. by rewrite merge_sort_Permutation, elem_of_remove_dups. Qed.

(** Two strictly ascending lists with the same elements are equal: the
    result of [sorted(set(l))] does not depend on the order in which the
    set is traversed. *)
Lemma sorted_canonical l1 l2 :
  StronglySorted str_lt l1 -> StronglySorted str_lt l2 ->
  (forall e, e ∈ l1 <-> e ∈ l2) -> l1 = l2.
Proof.
  intros H1; revert l2; induction H1 as [|x l1 Hs1 IH Hx]; intros l2 H2 Heq.
  - destruct l2 as [|y l2]; [done|]. exfalso.
    specialize (Heq y). rewrite elem_of_nil in Heq. apply Heq. left.
  - destruct H2 as [|y l2 Hs2 Hy].
    { exfalso. specialize (Heq x). rewrite elem_of_nil in Heq. apply Heq. left. }
    rewrite Forall_forall in Hx, Hy.
    assert (x = y) as ->.
    { destruct (Heq x) as [Hxy _]. destruct (Heq y) as [_ Hyx].
      specialize (Hxy (list_elem_of_here _ _)). specialize (Hyx (list_elem_of_here _ _)).
      apply elem_of_cons in Hxy as [?|Hxy]; [done|].
      apply elem_of_cons in Hyx as [?|Hyx]; [done|].
      exfalso. apply (str_lt_irrefl x). transitivity y; auto. }
    f_equal. apply IH; [done|]. intros e. specialize (Heq e).
    rewrite !elem_of_cons in Heq. split; intros He.
    + destruct Heq as [[->|?] _]; [by right|..]; [|done].
      exfalso. by apply (str_lt_irrefl y), Hx.
    + destruct Heq as [_ [->|?]]; [by right|..]; [|done].
      exfalso. by apply (str_lt_irrefl y), Hy.
Qed.

(** ** The matcher finds a match exactly when there is one *)

Lemma strip_prefix_app l s : strip_prefix l (l ++ s) = Some s.
Proof. induction l as [|x l IH]; simpl; [by destruct s|]. by rewrite N.eqb_refl. Qed.

Lemma strip_prefix_Some l s s' : strip_prefix l s = Some s' -> s = l ++ s'.
Proof.
  revert s; induction l as [|x l IH]; intros [|y s]; simpl; try congruence.
  destruct (N.eqb_spec x y) as [->|]; [|done]. intros H. by rewrite (IH _ H).
Qed.

Lemma strip_prefix_None l s : strip_prefix l s = None -> forall s', s <> l ++ s'.
Proof. intros H s' ->. by rewrite strip_prefix_app in H. Qed.

Section LoopFacts.
Context {R : Type} (cs : cset) (k : str -> nat -> option R).

Lemma star_greedy_sound s pos r :
  star_greedy cs k s pos = Some r ->
  exists a rest, s = a ++ rest /\ Forall (fun c => mem cs c = true) a /\
                 k rest (pos + length a) = Some r.
Proof.
  revert pos; induction s as [|c s IH]; intros pos; simpl.
  - intros H. exists [], []. by rewrite Nat.add_0_r.
  - destruct (mem cs c) eqn:Hc.
    + destruct (star_greedy cs k s (S pos)) as [r'|] eqn:E.
      * intros [= ->]. destruct (IH _ E) as (a & rest & -> & Ha & Hk).
        exists (c :: a), rest. split; [done|]. split; [by constructor|].
        simpl. by rewrite Nat.add_succ_r.
      * intros H. exists [], (c :: s). by rewrite Nat.add_0_r.
    + intros H. exists [], (c :: s). by rewrite Nat.add_0_r.
Qed.

Lemma star_greedy_base s pos : is_Some (k s pos) -> is_Some (star_greedy cs k s pos).
Proof.
  intros H. destruct s as [|c s]; simpl; [done|].
  destruct (mem cs c); [|done]. by destruct (star_greedy cs k s (S pos)).
Qed.

Lemma star_greedy_complete a rest pos :
  Forall (fun c => mem cs c = true) a ->
  is_Some (k rest (pos + length a)) ->
  is_Some (star_greedy cs k (a ++ rest) pos).
Proof.
  intros Ha; revert pos; induction Ha as [|c a Hc Ha IH]; intros pos; simpl.
  - rewrite Nat.add_0_r. apply star_greedy_base.
  - rewrite Hc, Nat.add_succ_r. intros H. apply (IH (S pos)) in H as [r ->]. done.
Qed.

(** The lazy loop stops at the shortest repetition after which the rest
    of the pattern matches. *)
Lemma star_lazy_sound s pos r :
  star_lazy cs k s pos = Some r ->
  exists a rest, s = a ++ rest /\ Forall (fun c => mem cs c = true) a /\
                 k rest (pos + length a) = Some r /\
                 forall j, j < length a -> k (drop j s) (pos + j) = None.
Proof.
  revert pos; induction s as [|c s IH]; intros pos; simpl.
  - destruct (k [] pos) eqn:E; [|done]. intros [= ->].
    exists [], []. rewrite Nat.add_0_r. repeat split; auto. simpl; lia.
  - destruct (k (c :: s) pos) eqn:E.
    + intros [= ->]. exists [], (c :: s). rewrite Nat.add_0_r.
      repeat split; auto. simpl; lia.
    + destruct (mem cs c) eqn:Hc; [|done]. intros H.
      destruct (IH _ H) as (a & rest & -> & Ha & Hk & Hmin).
      exists (c :: a), rest. split; [done|]. split; [by constructor|].
      simpl. rewrite Nat.add_succ_r. split; [done|].
      intros [|j] Hj; simpl.
      * by rewrite Nat.add_0_r.
      * rewrite Nat.add_succ_r. apply Hmin. lia.
Qed.

Lemma star_lazy_complete a rest pos :
  Forall (fun c => mem cs c = true) a ->
  is_Some (k rest (pos + length a)) ->
  is_Some (star_lazy cs k (a ++ rest) pos).
Proof.
  intros Ha; revert pos; induction Ha as [|c a Hc Ha IH]; intros pos; simpl.
  - rewrite Nat.add_0_r. intros [r Hr]. destruct rest; simpl; by rewrite Hr.
  - rewrite Nat.add_succ_r. intros H. apply (IH (S pos)) in H.
    destruct (k (c :: a ++ rest) pos); [done|]. by rewrite Hc.
Qed.

End LoopFacts.

Lemma exec_sound p : forall s pos m e m',
  exec p s pos m = Some (e, m') ->
  exists w rest, s = w ++ rest /\ e = pos + length w /\ matches p w pos m m'.
Proof.
  induction p as [|[l|cs|[|] cs|i] p IH]; intros s pos m e m'; simpl.
  - intros [= <- <-]. exists [], s. rewrite Nat.add_0_r. repeat split. constructor.
  - destruct (strip_prefix l s) as [s'|] eqn:E; [|done]. intros H.
    apply strip_prefix_Some in E as ->.
    destruct (IH _ _ _ _ _ H) as (w & rest & -> & -> & Hm).
    exists (l ++ w), rest. rewrite <- app_assoc, length_app.
    repeat split; [lia|by constructor].
  - destruct s as [|c s]; [done|]. destruct (mem cs c) eqn:Hc; [|done]. intros H.
    destruct (IH _ _ _ _ _ H) as (w & rest & -> & -> & Hm).
    exists (c :: w), rest. simpl. repeat split; [lia|by constructor].
  - intros H. apply star_greedy_sound in H as (a & s' & -> & Ha & H).
    destruct (IH _ _ _ _ _ H) as (w & rest & -> & -> & Hm).
    exists (a ++ w), rest. rewrite <- app_assoc, length_app.
    repeat split; [lia|by constructor].
  - intros H. apply star_lazy_sound in H as (a & s' & -> & Ha & H & _).
    destruct (IH _ _ _ _ _ H) as (w & rest & -> & -> & Hm).
    exists (a ++ w), rest. rewrite <- app_assoc, length_app.
    repeat split; [lia|by constructor].
  - intros H. destruct (IH _ _ _ _ _ H) as (w & rest & -> & -> & Hm).
    exists w, rest. repeat split. by constructor.
Qed.

Lemma exec_complete p w pos m m' :
  matches p w pos m m' -> forall rest, is_Some (exec p (w ++ rest) pos m).
Proof.
  induction 1 as [pos m|l p w pos m m' _ IH|cs c p w pos m m' Hc _ IH
                 |g cs a p w pos m m' Ha _ IH|i p w pos m m' _ IH];
    intros rest; simpl.
  - done.
  - by rewrite <- app_assoc, strip_prefix_app.
  - by rewrite Hc.
  - rewrite <- app_assoc.
    destruct g; [by apply star_greedy_complete|by apply star_lazy_complete].
  - done.
Qed.

(** Whether a pattern matches at a place depends neither on the position
    counted so far nor on the marks. *)
Lemma matches_shift p w pos m m' :
  matches p w pos m m' -> forall pos1 m1, exists m1', matches p w pos1 m1 m1'.
Proof.
  induction 1 as [pos m|l p w pos m m' _ IH|cs c p w pos m m' Hc _ IH
                 |g cs a p w pos m m' Ha _ IH|i p w pos m m' _ IH];
    intros pos1 m1.
  - eexists; constructor.
  - destruct (IH (pos1 + length l) m1) as [m1' H]. eexists; by constructor.
  - destruct (IH (S pos1) m1) as [m1' H]. eexists; by constructor.
  - destruct (IH (pos1 + length a) m1) as [m1' H]. eexists; by constructor.
  - destruct (IH pos1 ((i, pos1) :: m1)) as [m1' H]. eexists; by constructor.
Qed.

Lemma exec_None p s pos m :
  exec p s pos m = None ->
  forall w rest pos1 m1 m1', s = w ++ rest -> ~ matches p w pos1 m1 m1'.
Proof.
  intros HN w rest pos1 m1 m1' -> Hm.
  destruct (matches_shift _ _ _ _ _ Hm pos m) as [m' Hm'].
  destruct (exec_complete _ _ _ _ _ Hm' rest) as [x Hx]. congruence.
Qed.

(** *** [re.search] *)

Lemma search_from_Some p s pos mo :
  search_from p s pos = Some mo ->
  exists j, j <= length s /\ m_start mo = pos + j /\
    exec p (drop j s) (pos + j) [] = Some (m_end mo, m_marks mo) /\
    forall i, i < j -> exec p (drop i s) (pos + i) [] = None.
Proof.
  revert pos; induction s as [|c s IH]; intros pos; simpl.
  - destruct (exec p [] pos []) as [[e m]|] eqn:E; [|done]. intros [= <-].
    exists 0. rewrite Nat.add_0_r. simpl. repeat split; auto. lia.
  - destruct (exec p (c :: s) pos []) as [[e m]|] eqn:E.
    + intros [= <-]. exists 0. rewrite Nat.add_0_r. simpl.
      repeat split; auto; lia.
    + intros H. destruct (IH _ H) as (j & Hj & Hst & Hex & Hmin).
      exists (S j). simpl. rewrite Nat.add_succ_r.
      repeat split; auto; [lia|].
      intros [|i] Hi; simpl; [by rewrite Nat.add_0_r|].
      rewrite Nat.add_succ_r. apply Hmin. lia.
Qed.

Lemma search_from_None p s pos :
  search_from p s pos = None ->
  forall j, j <= length s -> exec p (drop j s) (pos + j) [] = None.
Proof.
  revert pos; induction s as [|c s IH]; intros pos; simpl.
  - destruct (exec p [] pos []) as [[e m]|] eqn:E; [done|].
    intros _ j Hj. replace j with 0 by lia. by rewrite Nat.add_0_r.
  - destruct (exec p (c :: s) pos []) as [[e m]|] eqn:E; [done|].
    intros H [|j] Hj; simpl; [by rewrite Nat.add_0_r|].
    rewrite Nat.add_succ_r. apply (IH (S pos)); [done|lia].
Qed.

(** *** [re.findall] *)

Lemma findall_from_skip p text : forall k s pos,
  k <= length s ->
  findall_from p text s pos k = findall_from p text (drop k s) (pos + k) 0.
Proof.
  induction k as [|k IH]; intros s pos Hk.
  - by rewrite drop_0, Nat.add_0_r.
  - destruct s as [|c s]; simpl in *; [lia|].
    rewrite IH by lia. by rewrite Nat.add_succ_r.
Qed.

Lemma slice_app pre w rest :
  slice (length pre) (length pre + length w) (pre ++ w ++ rest) = w.
Proof.
  unfold slice. rewrite drop_app_length.
  replace (length pre + length w - length pre) with (length w) by lia.
  by rewrite take_app_length.
Qed.

(** One step of [findall] at a place where a non-empty match [w] of a
    pattern without group starts. *)
Lemma findall_from_match p pre w rest m :
  has_group p = false -> w <> [] ->
  exec p (w ++ rest) (length pre) [] = Some (length pre + length w, m) ->
  findall_from p (pre ++ w ++ rest) (w ++ rest) (length pre) 0 =
  w :: findall_from p (pre ++ w ++ rest) rest (length pre + length w) 0.
Proof.
  intros Hg Hw Hex. destruct w as [|c w]; [done|].
  pose proof (slice_app pre (c :: w) rest) as Hsl.
  simpl in Hsl, Hex |- *. rewrite Hex, Hg. f_equal.
  - exact Hsl.
  - rewrite findall_from_skip by (rewrite length_app; lia).
    replace (length pre + S (length w) - length pre - 1) with (length w) by lia.
    rewrite drop_app_length. f_equal. lia.
Qed.

Lemma findall_from_nomatch p text s pos :
  exec p s pos [] = None ->
  findall_from p text s pos 0 =
  match s with [] => [] | _ :: s' => findall_from p text s' (S pos) 0 end.
Proof. intros H. destruct s; simpl; by rewrite H. Qed.

(** ** The e-mail pattern *)

Lemma at_sign_not_local : mem local_chars (N_of_ascii "@") = false.
Proof. reflexivity. Qed.

Lemma domain_at : exists t, domain = N_of_ascii "@" :: t.
Proof. eexists. reflexivity. Qed.

Lemma has_group_email : has_group email_pattern = false.
Proof. reflexivity. Qed.

Lemma matches_email w pos m m' :
  matches email_pattern w pos m m' <-> address w /\ m' = m.
Proof.
  unfold email_pattern, Plus. simpl. split.
  - intros H. invert_matches. split; [|done].
    match goal with
    | Hc : mem local_chars ?c = true, Ha : Forall _ ?a |- _ =>
      exists (c :: a); rewrite app_nil_r; split; [done|]; split; [done|];
      by constructor
    end.
  - intros [(local & -> & Hne & Hl) ->].
    destruct local as [|c a]; [done|]. apply Forall_cons in Hl as [Hc Ha].
    simpl. constructor; [done|]. constructor; [done|].
    rewrite <- (app_nil_r domain). constructor. constructor.
Qed.

(** At most one address starts at a given place: its local part ends at
    the first [@]. *)
Lemma run_unique {A} (P : A -> Prop) a a' x x' t t' :
  Forall P a -> Forall P a' -> ~ P x -> ~ P x' ->
  a ++ x :: t = a' ++ x' :: t' -> a = a'.
Proof.
  intros Ha; revert a'; induction Ha as [|c a Hc Ha IH];
    intros [|c' a'] Ha' Hx Hx'; simpl; intros [= ]; subst; try done.
  - apply Forall_cons in Ha' as [? _]. done.
  - apply Forall_cons in Ha' as [_ Ha']. f_equal. eapply IH; eauto.
Qed.

Lemma address_unique e e' r r' :
  address e -> address e' -> e ++ r = e' ++ r' -> e = e'.
Proof.
  intros (l & -> & _ & Hl) (l' & -> & _ & Hl') Heq.
  destruct domain_at as [t Ht]. rewrite Ht in *.
  rewrite <- !app_assoc in Heq. simpl in Heq.
  assert (l = l') as ->; [|done].
  apply (run_unique (fun c => mem local_chars c = true) l l'
           (N_of_ascii "@") (N_of_ascii "@") (t ++ r) (t ++ r') Hl Hl');
    [by rewrite at_sign_not_local..|exact Heq].
Qed.

Lemma address_nonempty e : address e -> e <> [].
Proof. intros (l & -> & Hl & _). by destruct l. Qed.

Lemma exec_email_Some s pos m e m' :
  exec email_pattern s pos m = Some (e, m') ->
  exists w rest, s = w ++ rest /\ address w /\ e = pos + length w /\ m' = m.
Proof.
  intros H. apply exec_sound in H as (w & rest & -> & -> & Hm).
  apply matches_email in Hm as [Hw ->]. by exists w, rest.
Qed.

Lemma exec_email_address e rest pos m :
  address e ->
  exec email_pattern (e ++ rest) pos m = Some (pos + length e, m).
Proof.
  intros He.
  assert (matches email_pattern e pos m m) as Hm by by apply matches_email.
  destruct (exec_complete _ _ _ _ _ Hm rest) as [[e' m'] Hex].
  rewrite Hex. apply exec_email_Some in Hex as (w & r & Heq & Hw & -> & ->).
  by rewrite (address_unique _ _ _ _ He Hw Heq).
Qed.

Lemma exec_email_None s pos m :
  exec email_pattern s pos m = None -> ~ starts_address s.
Proof.
  intros H (e & rest & He & ->).
  by rewrite exec_email_address in H.
Qed.

(** The pattern never matches the empty string. *)
Lemma exec_email_progress s pos m e m' :
  exec email_pattern s pos m = Some (e, m') -> pos < e.
Proof.
  intros H. apply exec_email_Some in H as (w & rest & -> & Hw & -> & _).
  apply address_nonempty in Hw. destruct w; [done|simpl; lia].
Qed.

Lemma findall_email_scan n : forall pre s,
  length s <= n ->
  address_scan s (findall_from email_pattern (pre ++ s) s (length pre) 0).
Proof.
  induction n as [|n IH]; intros pre s Hn.
  - destruct s; [|simpl in Hn; lia]. simpl. constructor.
  - destruct (exec email_pattern s (length pre) []) as [[e m]|] eqn:Hex.
    + pose proof Hex as Hex'.
      apply exec_email_Some in Hex' as (w & rest & -> & Hw & -> & ->).
      pose proof (address_nonempty _ Hw) as Hne.
      rewrite (findall_from_match _ pre w rest [] has_group_email Hne Hex).
      constructor; [done|].
      replace (pre ++ w ++ rest) with ((pre ++ w) ++ rest) by by rewrite app_assoc.
      rewrite <- length_app. apply IH.
      rewrite length_app in Hn. destruct w; [done|simpl in Hn; lia].
    + rewrite (findall_from_nomatch _ _ _ _ Hex).
      destruct s as [|c s]; [constructor|].
      apply scan_skip; [by eapply exec_email_None|].
      replace (pre ++ c :: s) with ((pre ++ [c]) ++ s) by by rewrite <- app_assoc.
      replace (S (length pre)) with (length (pre ++ [c]))
        by (rewrite length_app; simpl; lia).
      apply IH. simpl in Hn. lia.
Qed.

Lemma findall_email_address_scan text :
  address_scan text (findall email_pattern text).
Proof. apply (findall_email_scan (length text) [] text). done. Qed.

Lemma address_scan_found s found :
  address_scan s found -> forall e, e ∈ found -> address e /\ occurs e s.
Proof.
  induction 1 as [|e rest found He _ IH|c s found _ _ IH]; intros x Hx.
  - by apply elem_of_nil in Hx.
  - apply elem_of_cons in Hx as [->|Hx].
    + split; [done|]. by exists [], rest.
    + destruct (IH _ Hx) as [Ha (pre & post & ->)]. split; [done|].
      exists (e ++ pre), post. by rewrite <- app_assoc.
  - destruct (IH _ Hx) as [Ha (pre & post & ->)]. split; [done|].
    by exists (c :: pre), post.
Qed.

(** The scan is a function of the text. *)
Lemma address_scan_functional s found :
  address_scan s found -> forall found', address_scan s found' -> found = found'.
Proof.
  induction 1 as [|e rest found He Hs IH|c s found Hn Hs IH]; intros found' H'.
  - inversion H' as [|e' rest' f' He' Hs' Heq|]; subst; [done|].
    apply address_nonempty in He'. by destruct e'.
  - inversion H' as [Heq|e' rest' f' He' Hs' Heq|c s f' Hn' Hs' Heq]; subst.
    + apply address_nonempty in He. by destruct e.
    + assert (e' = e) as -> by by eapply address_unique.
      apply app_inv_head in Heq as ->. f_equal. by apply IH.
    + exfalso. apply Hn'. rewrite Heq. by exists e, rest.
  - inversion H' as [|e' rest' f' He' Hs' Heq|c' s' f' Hn' Hs' Heq]; subst.
    + exfalso. apply Hn. rewrite <- Heq. by exists e', rest'.
    + by apply IH.
Qed.

(** ** Names and titles *)

Lemma mem_not_gt c : mem (NoneOf [one ">"]) c = true <-> c <> N_of_ascii ">".
Proof.
  change (mem (NoneOf [one ">"]) c)
    with (negb ((62 <=? c)%N && (c <=? 62)%N || false)).
  change (N_of_ascii ">") with 62%N. rewrite orb_false_r.
  destruct (N.leb_spec 62 c), (N.leb_spec c 62); simpl;
    split; intros; try done; lia.
Qed.

Lemma name_matches mid attrs inner pos m :
  Forall (fun c => c <> N_of_ascii ">") attrs ->
  exists m', matches name_pattern
               (div_class "member_name" ++ mid ++ ustr "<a" ++ attrs
                  ++ ustr ">" ++ inner ++ ustr "</a>") pos m m'.
Proof.
  intros Ha. eexists. unfold name_pattern.
  constructor. constructor; [by apply Forall_forall|].
  constructor. constructor.
  { eapply Forall_impl; [exact Ha|]. intros c. by rewrite mem_not_gt. }
  constructor. constructor. constructor; [by apply Forall_forall|].
  constructor. rewrite <- (app_nil_r (ustr "</a>")). constructor. constructor.
Qed.

Lemma title_matches m1 m2 ws inner pos m :
  Forall (fun c => isspace c = true) ws ->
  exists m', matches title_pattern
               (div_class "member_info_title" ++ m1 ++ ustr "職稱" ++ m2
                  ++ ustr "</div>" ++ ws ++ div_class "member_info_content"
                  ++ inner ++ ustr "</div>") pos m m'.
Proof.
  intros Hws. eexists. unfold title_pattern.
  constructor. constructor; [by apply Forall_forall|].
  constructor. constructor; [by apply Forall_forall|].
  constructor. constructor; [done|].
  constructor. constructor. constructor; [by apply Forall_forall|].
  constructor. rewrite <- (app_nil_r (ustr "</div>")). constructor. constructor.
Qed.

Lemma group1_marks text mo p0 p1 :
  m_marks mo = [(1, p1); (0, p0)] -> group 1 text mo = slice p0 p1 text.
Proof. intros H. unfold group. by rewrite H. Qed.

Lemma search_None_matches p block :
  search p block = None ->
  forall pre w post pos m m', block = pre ++ w ++ post -> ~ matches p w pos m m'.
Proof.
  intros H pre w post pos m m' ->.
  pose proof (search_from_None _ _ _ H (length pre)) as HN.
  rewrite drop_app_length in HN.
  eapply exec_None; [apply HN|done]. rewrite !length_app. lia.
Qed.

(** *** The matcher, item by item

    What a successful run of the matcher went through at a literal, a
    lazy and a greedy repetition; the lazy one records that no shorter
    repetition would have done. *)

Lemma exec_lit_inv l p s pos m r :
  exec (Lit l :: p) s pos m = Some r ->
  exists s', s = l ++ s' /\ exec p s' (pos + length l) m = Some r.
Proof.
  simpl. destruct (strip_prefix l s) as [s'|] eqn:E; [|done].
  intros H. exists s'. split; [by apply strip_prefix_Some|done].
Qed.

Lemma exec_lazy_inv cs p s pos m r :
  exec (Star Lazy cs :: p) s pos m = Some r ->
  exists a rest, s = a ++ rest /\ Forall (fun c => mem cs c = true) a /\
    exec p rest (pos + length a) m = Some r /\
    forall j, j < length a -> exec p (drop j s) (pos + j) m = None.
Proof. apply (star_lazy_sound cs (fun s' pos' => exec p s' pos' m)). Qed.

Lemma exec_greedy_inv cs p s pos m r :
  exec (Star Greedy cs :: p) s pos m = Some r ->
  exists a rest, s = a ++ rest /\ Forall (fun c => mem cs c = true) a /\
    exec p rest (pos + length a) m = Some r.
Proof. apply (star_greedy_sound cs (fun s' pos' => exec p s' pos' m)). Qed.

(** The block pattern never matches the empty string. *)
Lemma exec_block_progress s pos m e m' :
  exec block_pattern s pos m = Some (e, m') -> pos < e.
Proof.
  unfold block_pattern. intros H.
  apply exec_lit_inv in H as (s1 & -> & H).
  apply exec_sound in H as (w & rest & -> & -> & _).
  assert (0 < length (div_class "teacher-list")) by (vm_compute; lia). lia.
Qed.

Lemma exec_closing_None l s pos m :
  exec [Mark 1; Lit l] s pos m = None -> ~ starts_with l s.
Proof.
  simpl. intros H [post ->]. by rewrite strip_prefix_app in H.
Qed.

Lemma exec_link s pos m e m' :
  exec link_pattern s pos m = Some (e, m') ->
  exists attrs inner post,
    link_at s attrs inner post /\
    m' = (1, pos + length (ustr "<a" ++ attrs ++ ustr ">") + length inner)
           :: (0, pos + length (ustr "<a" ++ attrs ++ ustr ">")) :: m /\
    forall j, j < length inner ->
      ~ starts_with (ustr "</a>") (drop j (inner ++ ustr "</a>" ++ post)).
Proof.
  unfold link_pattern. intros H.
  apply exec_lit_inv in H as (s1 & -> & H).
  apply exec_greedy_inv in H as (attrs & s2 & -> & Ha & H).
  apply exec_lit_inv in H as (s3 & -> & H).
  change (exec (Mark 0 :: ?p) ?s ?pos ?m) with (exec p s pos ((0, pos) :: m)) in H.
  apply exec_lazy_inv in H as (inner & s4 & -> & _ & H & Hmin).
  change (exec (Mark 1 :: ?p) ?s ?pos ?m) with (exec p s pos ((1, pos) :: m)) in H.
  apply exec_lit_inv in H as (post & -> & H).
  simpl in H. injection H as <- <-.
  exists attrs, inner, post. split; [split|split].
  - done.
  - eapply Forall_impl; [exact Ha|]. intros c. by rewrite mem_not_gt.
  - by rewrite !length_app, !Nat.add_assoc.
  - intros j Hj. eapply exec_closing_None. apply (Hmin j Hj).
Qed.

Lemma link_exec s attrs inner post pos m :
  link_at s attrs inner post -> is_Some (exec link_pattern s pos m).
Proof.
  intros [-> Ha].
  assert (exists m', matches link_pattern
            (ustr "<a" ++ attrs ++ ustr ">" ++ inner ++ ustr "</a>") pos m m')
    as [m' Hm].
  { eexists. unfold link_pattern. constructor. constructor.
    { eapply Forall_impl; [exact Ha|]. intros c. by rewrite mem_not_gt. }
    constructor. constructor. constructor; [by apply Forall_forall|].
    constructor. rewrite <- (app_nil_r (ustr "</a>")). constructor. constructor. }
  pose proof (exec_complete _ _ _ _ _ Hm post) as H.
  by rewrite <- !app_assoc in H.
Qed.

Lemma exec_name s pos m e m' :
  exec name_pattern s pos m = Some (e, m') ->
  exists mid attrs inner post,
    s = div_class "member_name" ++ mid ++ ustr "<a" ++ attrs ++ ustr ">"
          ++ inner ++ ustr "</a>" ++ post /\
    Forall (fun c => c <> N_of_ascii ">") attrs /\
    m' = (1, pos + length (div_class "member_name" ++ mid ++ ustr "<a"
                             ++ attrs ++ ustr ">") + length inner)
           :: (0, pos + length (div_class "member_name" ++ mid ++ ustr "<a"
                                  ++ attrs ++ ustr ">")) :: m /\
    (forall j, j < length mid ->
       ~ exists attrs' inner' post',
           link_at (drop j (mid ++ ustr "<a" ++ attrs ++ ustr ">" ++ inner
                               ++ ustr "</a>" ++ post)) attrs' inner' post') /\
    (forall j, j < length inner ->
       ~ starts_with (ustr "</a>") (drop j (inner ++ ustr "</a>" ++ post))).
Proof.
  change name_pattern
    with (Lit (div_class "member_name") :: Star Lazy Any :: link_pattern).
  intros H.
  apply exec_lit_inv in H as (s1 & -> & H).
  apply exec_lazy_inv in H as (mid & s2 & -> & _ & H & Hmin).
  apply exec_link in H as (attrs & inner & post & [-> Ha] & -> & Hin).
  exists mid, attrs, inner, post. repeat split; auto.
  - by rewrite !length_app, !Nat.add_assoc.
  - intros j Hj (attrs' & inner' & post' & Hl).
    eapply link_exec in Hl as [r Hr]. by rewrite (Hmin j Hj) in Hr.
Qed.

Lemma name_exec s mid attrs inner post pos m :
  name_link s [] mid attrs inner post -> is_Some (exec name_pattern s pos m).
Proof.
  intros [-> Ha]. destruct (name_matches mid attrs inner pos m Ha) as [m' Hm].
  pose proof (exec_complete _ _ _ _ _ Hm post) as H.
  by rewrite <- !app_assoc in H.
Qed.

Lemma block_name_first block :
  (exists pre mid attrs inner post,
     first_name_link block pre mid attrs inner post /\
     block_name block = strip inner) \/
  (~ has_name_link block /\ block_name block = unknown).
Proof.
  unfold block_name. destruct (search name_pattern block) as [mo|] eqn:E.
  - left. apply search_from_Some in E as (j & Hj & _ & Hex & Hmin).
    apply exec_name in Hex as (mid & attrs & inner & post & Hd & Ha & Hmarks & H2 & H3).
    exists (take j block), mid, attrs, inner, post.
    assert (length (take j block) = j) as Hlen by (rewrite length_take; lia).
    assert (block = take j block ++ div_class "member_name" ++ mid ++ ustr "<a"
                      ++ attrs ++ ustr ">" ++ inner ++ ustr "</a>" ++ post) as Hb.
    { by rewrite <- Hd, take_drop. }
    split.
    + split; [by split|]. rewrite Hlen. split; [|by split].
      intros i Hi (mid' & attrs' & inner' & post' & Hl).
      apply (name_exec _ _ _ _ _ (0 + i) []) in Hl as [r Hr].
      by rewrite (Hmin i Hi) in Hr.
    + f_equal. rewrite !Nat.add_0_l in Hmarks. rewrite <- Hlen in Hmarks.
      rewrite (group1_marks _ _ _ _ Hmarks), <- length_app.
      rewrite Hb at 3.
      replace (take j block ++ div_class "member_name" ++ mid ++ ustr "<a"
                 ++ attrs ++ ustr ">" ++ inner ++ ustr "</a>" ++ post)
        with ((take j block ++ div_class "member_name" ++ mid ++ ustr "<a"
                 ++ attrs ++ ustr ">") ++ inner ++ ustr "</a>" ++ post)
        by by rewrite <- !app_assoc.
      apply slice_app.
  - right. split; [|done].
    intros (pre & mid & attrs & inner & post & -> & Ha).
    destruct (name_matches mid attrs inner 0 [] Ha) as [m' Hm].
    eapply (search_None_matches _ _ E pre _ post); [|exact Hm].
    by rewrite <- !app_assoc.
Qed.

Lemma exec_content s pos m e m' :
  exec content_pattern s pos m = Some (e, m') ->
  exists ws inner post,
    content_at s ws inner post /\
    m' = (1, pos + length (ustr "</div>" ++ ws
                             ++ div_class "member_info_content")
               + length inner)
           :: (0, pos + length (ustr "</div>" ++ ws
                                  ++ div_class "member_info_content")) :: m /\
    forall j, j < length inner ->
      ~ starts_with (ustr "</div>") (drop j (inner ++ ustr "</div>" ++ post)).
Proof.
  unfold content_pattern. intros H.
  apply exec_lit_inv in H as (s1 & -> & H).
  apply exec_greedy_inv in H as (ws & s2 & -> & Hws & H).
  apply exec_lit_inv in H as (s3 & -> & H).
  change (exec (Mark 0 :: ?p) ?s ?pos ?m) with (exec p s pos ((0, pos) :: m)) in H.
  apply exec_lazy_inv in H as (inner & s4 & -> & _ & H & Hmin).
  change (exec (Mark 1 :: ?p) ?s ?pos ?m) with (exec p s pos ((1, pos) :: m)) in H.
  apply exec_lit_inv in H as (post & -> & H).
  simpl in H. injection H as <- <-.
  exists ws, inner, post. split; [split|split].
  - done.
  - done.
  - by rewrite !length_app, !Nat.add_assoc.
  - intros j Hj. eapply exec_closing_None. apply (Hmin j Hj).
Qed.

Lemma content_exec s ws inner post pos m :
  content_at s ws inner post -> is_Some (exec content_pattern s pos m).
Proof.
  intros [-> Hws].
  assert (exists m', matches content_pattern
            (ustr "</div>" ++ ws ++ div_class "member_info_content" ++ inner
               ++ ustr "</div>") pos m m') as [m' Hm].
  { eexists. unfold content_pattern. constructor. constructor; [done|].
    constructor. constructor. constructor; [by apply Forall_forall|].
    constructor. rewrite <- (app_nil_r (ustr "</div>")). constructor. constructor. }
  pose proof (exec_complete _ _ _ _ _ Hm post) as H.
  by rewrite <- !app_assoc in H.
Qed.

Lemma exec_label s pos m e m' :
  exec label_pattern s pos m = Some (e, m') ->
  exists m2 ws inner post,
    label_at s m2 ws inner post /\
    m' = (1, pos + length (ustr "職稱" ++ m2 ++ ustr "</div>" ++ ws
                             ++ div_class "member_info_content")
               + length inner)
           :: (0, pos + length (ustr "職稱" ++ m2 ++ ustr "</div>" ++ ws
                                  ++ div_class "member_info_content")) :: m /\
    (forall j, j < length m2 ->
       ~ exists ws' inner' post',
           content_at (drop j (m2 ++ ustr "</div>" ++ ws
                                  ++ div_class "member_info_content" ++ inner
                                  ++ ustr "</div>" ++ post)) ws' inner' post') /\
    (forall j, j < length inner ->
       ~ starts_with (ustr "</div>") (drop j (inner ++ ustr "</div>" ++ post))).
Proof.
  unfold label_pattern. intros H.
  apply exec_lit_inv in H as (s1 & -> & H).
  apply exec_lazy_inv in H as (m2 & s2 & -> & _ & H & Hmin).
  apply exec_content in H as (ws & inner & post & [-> Hws] & -> & Hin).
  exists m2, ws, inner, post. repeat split; auto.
  - by rewrite !length_app, !Nat.add_assoc.
  - intros j Hj (ws' & inner' & post' & Hl).
    eapply content_exec in Hl as [r Hr]. by rewrite (Hmin j Hj) in Hr.
Qed.

Lemma label_exec s m2 ws inner post pos m :
  label_at s m2 ws inner post -> is_Some (exec label_pattern s pos m).
Proof.
  intros [-> Hws].
  assert (exists m', matches label_pattern
            (ustr "職稱" ++ m2 ++ ustr "</div>" ++ ws
               ++ div_class "member_info_content" ++ inner ++ ustr "</div>")
            pos m m') as [m' Hm].
  { eexists. unfold label_pattern, content_pattern.
    constructor. constructor; [by apply Forall_forall|].
    constructor. constructor; [done|].
    constructor. constructor. constructor; [by apply Forall_forall|].
    constructor. rewrite <- (app_nil_r (ustr "</div>")). constructor. constructor. }
  pose proof (exec_complete _ _ _ _ _ Hm post) as H.
  by rewrite <- !app_assoc in H.
Qed.

Lemma exec_title s pos m e m' :
  exec title_pattern s pos m = Some (e, m') ->
  exists m1 m2 ws inner post,
    s = div_class "member_info_title" ++ m1 ++ ustr "職稱" ++ m2
          ++ ustr "</div>" ++ ws ++ div_class "member_info_content"
          ++ inner ++ ustr "</div>" ++ post /\
    Forall (fun c => isspace c = true) ws /\
    m' = (1, pos + length (div_class "member_info_title" ++ m1 ++ ustr "職稱"
                             ++ m2 ++ ustr "</div>" ++ ws
                             ++ div_class "member_info_content")
               + length inner)
           :: (0, pos + length (div_class "member_info_title" ++ m1
                                  ++ ustr "職稱" ++ m2 ++ ustr "</div>" ++ ws
                                  ++ div_class "member_info_content")) :: m /\
    (forall j, j < length m1 ->
       ~ exists m2' ws' inner' post',
           label_at (drop j (m1 ++ ustr "職稱" ++ m2 ++ ustr "</div>" ++ ws
                                ++ div_class "member_info_content" ++ inner
                                ++ ustr "</div>" ++ post)) m2' ws' inner' post') /\
    (forall j, j < length m2 ->
       ~ exists ws' inner' post',
           content_at (drop j (m2 ++ ustr "</div>" ++ ws
                                  ++ div_class "member_info_content" ++ inner
                                  ++ ustr "</div>" ++ post)) ws' inner' post') /\
    (forall j, j < length inner ->
       ~ starts_with (ustr "</div>") (drop j (inner ++ ustr "</div>" ++ post))).
Proof.
  change title_pattern
    with (Lit (div_class "member_info_title") :: Star Lazy Any :: label_pattern).
  intros H.
  apply exec_lit_inv in H as (s1 & -> & H).
  apply exec_lazy_inv in H as (m1 & s2 & -> & _ & H & Hmin).
  apply exec_label in H as (m2 & ws & inner & post & [-> Hws] & -> & H3 & H4).
  exists m1, m2, ws, inner, post. repeat split; auto.
  - by rewrite !length_app, !Nat.add_assoc.
  - intros j Hj (m2' & ws' & inner' & post' & Hl).
    eapply label_exec in Hl as [r Hr]. by rewrite (Hmin j Hj) in Hr.
Qed.

Lemma title_exec s m1 m2 ws inner post pos m :
  title_field s [] m1 m2 ws inner post -> is_Some (exec title_pattern s pos m).
Proof.
  intros [-> Ha]. destruct (title_matches m1 m2 ws inner pos m Ha) as [m' Hm].
  pose proof (exec_complete _ _ _ _ _ Hm post) as H.
  by rewrite <- !app_assoc in H.
Qed.

Lemma block_title_first block :
  (exists pre m1 m2 ws inner post,
     first_title_field block pre m1 m2 ws inner post /\
     block_title block = strip inner) \/
  (~ has_title_field block /\ block_title block = unknown).
Proof.
  unfold block_title. destruct (search title_pattern block) as [mo|] eqn:E.
  - left. apply search_from_Some in E as (j & Hj & _ & Hex & Hmin).
    apply exec_title in Hex
      as (m1 & m2 & ws & inner & post & Hd & Ha & Hmarks & H2 & H3 & H4).
    exists (take j block), m1, m2, ws, inner, post.
    assert (length (take j block) = j) as Hlen by (rewrite length_take; lia).
    assert (block = take j block ++ div_class "member_info_title" ++ m1
                      ++ ustr "職稱" ++ m2 ++ ustr "</div>" ++ ws
                      ++ div_class "member_info_content" ++ inner
                      ++ ustr "</div>" ++ post) as Hb.
    { by rewrite <- Hd, take_drop. }
    split.
    + split; [by split|]. rewrite Hlen. split; [|by repeat split].
      intros i Hi (m1' & m2' & ws' & inner' & post' & Hl).
      apply (title_exec _ _ _ _ _ _ (0 + i) []) in Hl as [r Hr].
      by rewrite (Hmin i Hi) in Hr.
    + f_equal. rewrite !Nat.add_0_l in Hmarks. rewrite <- Hlen in Hmarks.
      rewrite (group1_marks _ _ _ _ Hmarks), <- length_app.
      rewrite Hb at 3.
      replace (take j block ++ div_class "member_info_title" ++ m1
                 ++ ustr "職稱" ++ m2 ++ ustr "</div>" ++ ws
                 ++ div_class "member_info_content" ++ inner
                 ++ ustr "</div>" ++ post)
        with ((take j block ++ div_class "member_info_title" ++ m1
                 ++ ustr "職稱" ++ m2 ++ ustr "</div>" ++ ws
                 ++ div_class "member_info_content") ++ inner
                 ++ ustr "</div>" ++ post)
        by by rewrite <- !app_assoc.
      apply slice_app.
  - right. split; [|done].
    intros (pre & m1 & m2 & ws & inner & post & -> & Ha).
    destruct (title_matches m1 m2 ws inner 0 [] Ha) as [m' Hm].
    eapply (search_None_matches _ _ E pre _ post); [|exact Hm].
    by rewrite <- !app_assoc.
Qed.

(** A text is cut in one way only at the first place where a property of
    the rest holds. *)
Lemma first_cut_unique {A} (P : list A -> Prop) a r a' r' :
  a ++ r = a' ++ r' -> P r -> P r' ->
  (forall j, j < length a -> ~ P (drop j (a ++ r))) ->
  (forall j, j < length a' -> ~ P (drop j (a' ++ r'))) ->
  a = a' /\ r = r'.
Proof.
  intros Heq Hr Hr' Hmin Hmin'.
  assert (length a = length a') as Hlen.
  { destruct (Nat.lt_trichotomy (length a) (length a')) as [Hlt|[?|Hlt]]; [|done|].
    - exfalso. apply (Hmin' _ Hlt). by rewrite <- Heq, drop_app_length.
    - exfalso. apply (Hmin _ Hlt). by rewrite Heq, drop_app_length. }
  by apply app_inj_1.
Qed.

Lemma first_name_link_unique block pre mid attrs inner post
    pre' mid' attrs' inner' post' :
  first_name_link block pre mid attrs inner post ->
  first_name_link block pre' mid' attrs' inner' post' ->
  pre = pre' /\ mid = mid' /\ attrs = attrs' /\ inner = inner' /\ post = post'.
Proof.
  intros [[Hb Ha] (H1 & H2 & H3)] [[Hb' Ha'] (H1' & H2' & H3')].
  destruct (first_cut_unique
              (fun s => exists m a i p, name_link s [] m a i p)
              pre _ pre' _ (eq_trans (eq_sym Hb) Hb')) as [<- Hr].
  { by exists mid, attrs, inner, post. }
  { by exists mid', attrs', inner', post'. }
  { intros i Hi. rewrite <- Hb. by apply H1. }
  { intros i Hi. rewrite <- Hb'. by apply H1'. }
  apply app_inv_head in Hr.
  destruct (first_cut_unique
              (fun s => exists a i p, link_at s a i p) mid _ mid' _ Hr)
    as [<- Hr2]; [by exists attrs, inner, post|by exists attrs', inner', post'
                 |done|done|].
  apply app_inv_head in Hr2.
  assert (attrs = attrs') as <-.
  { apply (run_unique (fun c => c <> N_of_ascii ">") attrs attrs'
             (N_of_ascii ">") (N_of_ascii ">")
             (inner ++ ustr "</a>" ++ post) (inner' ++ ustr "</a>" ++ post')
             Ha Ha'); [tauto|tauto|exact Hr2]. }
  apply app_inv_head, (app_inv_head (ustr ">")) in Hr2.
  destruct (first_cut_unique (starts_with (ustr "</a>")) inner _ inner' _ Hr2)
    as [<- Hr3]; [by exists post|by exists post'|done|done|].
  by apply app_inv_head in Hr3.
Qed.

Lemma lt_not_space : exists t,
  div_class "member_info_content" = N_of_ascii "<" :: t /\
  isspace (N_of_ascii "<") = false.
Proof. eexists. split; reflexivity. Qed.

Lemma first_title_field_unique block pre m1 m2 ws inner post
    pre' m1' m2' ws' inner' post' :
  first_title_field block pre m1 m2 ws inner post ->
  first_title_field block pre' m1' m2' ws' inner' post' ->
  pre = pre' /\ m1 = m1' /\ m2 = m2' /\ ws = ws' /\ inner = inner'
  /\ post = post'.
Proof.
  intros [[Hb Ha] (H1 & H2 & H3 & H4)] [[Hb' Ha'] (H1' & H2' & H3' & H4')].
  destruct (first_cut_unique
              (fun s => exists a b c d e, title_field s [] a b c d e)
              pre _ pre' _ (eq_trans (eq_sym Hb) Hb')) as [<- Hr].
  { by exists m1, m2, ws, inner, post. }
  { by exists m1', m2', ws', inner', post'. }
  { intros i Hi. rewrite <- Hb. by apply H1. }
  { intros i Hi. rewrite <- Hb'. by apply H1'. }
  apply app_inv_head in Hr.
  destruct (first_cut_unique
              (fun s => exists b c d e, label_at s b c d e) m1 _ m1' _ Hr)
    as [<- Hr2]; [by exists m2, ws, inner, post|by exists m2', ws', inner', post'
                 |done|done|].
  apply app_inv_head in Hr2.
  destruct (first_cut_unique
              (fun s => exists c d e, content_at s c d e) m2 _ m2' _ Hr2)
    as [<- Hr3]; [by exists ws, inner, post|by exists ws', inner', post'
                 |done|done|].
  apply app_inv_head in Hr3.
  assert (ws = ws') as <-.
  { destruct lt_not_space as (t & Ht & Hsp). rewrite Ht in Hr3.
    apply (run_unique (fun c => isspace c = true) ws ws'
             (N_of_ascii "<") (N_of_ascii "<")
             (t ++ inner ++ ustr "</div>" ++ post)
             (t ++ inner' ++ ustr "</div>" ++ post') Ha Ha');
      [by rewrite Hsp|by rewrite Hsp|exact Hr3]. }
  apply app_inv_head, app_inv_head in Hr3.
  destruct (first_cut_unique (starts_with (ustr "</div>")) inner _ inner' _ Hr3)
    as [<- Hr4]; [by exists post|by exists post'|done|done|].
  by apply app_inv_head in Hr4.
Qed.

(** *** [strip] trims *)

Lemma lstrip_spec s :
  exists l, s = l ++ lstrip s /\ Forall (fun c => isspace c = true) l /\
            forall c t, lstrip s = c :: t -> isspace c = false.
Proof.
  induction s as [|c s (l & Hs & Hl & Hh)]; simpl.
  - exists []. repeat split; auto. done.
  - destruct (isspace c) eqn:Hc.
    + exists (c :: l). split; [by rewrite Hs at 1|]. split; [by constructor|done].
    + exists []. split; [done|]. split; [constructor|].
      by intros c' t [= <- _].
Qed.

Lemma strip_spec s :
  exists l r, s = l ++ strip s ++ r /\
    Forall (fun c => isspace c = true) l /\
    Forall (fun c => isspace c = true) r /\
    (forall c t, strip s = c :: t -> isspace c = false) /\
    (forall c t, strip s = t ++ [c] -> isspace c = false).
Proof.
  unfold strip, rstrip.
  destruct (lstrip_spec s) as (l & Hs & Hl & Hh).
  destruct (lstrip_spec (rev (lstrip s))) as (r & Hr & Hrl & Hrh).
  exists l, (rev r).
  assert (lstrip s = rev (lstrip (rev (lstrip s))) ++ rev r) as Hmid.
  { rewrite <- rev_app_distr, <- Hr. by rewrite rev_involutive. }
  split; [by rewrite <- Hmid|]. split; [done|].
  split; [by apply Forall_rev|]. split.
  - intros c t Hc. rewrite Hc in Hmid. by apply (Hh c (t ++ rev r)).
  - intros c t Hc. apply (Hrh c (rev t)).
    apply (f_equal (@rev char)) in Hc.
    rewrite rev_involutive, rev_app_distr in Hc. done.
Qed.

(** The first character of a text that is no white space stands at one
    place. *)
Lemma first_nonspace (l : str) : forall (l' x x' : str) c c',
  Forall (fun a => isspace a = true) l ->
  Forall (fun a => isspace a = true) l' ->
  isspace c = false -> isspace c' = false ->
  l ++ c :: x = l' ++ c' :: x' ->
  l = l' /\ c :: x = c' :: x'.
Proof.
  induction l as [|a l IH]; intros [|b l'] x x' c c' Hl Hl' Hc Hc' Heq;
    simpl in Heq.
  - done.
  - injection Heq as -> _. apply Forall_cons in Hl' as [Hb _]. congruence.
  - injection Heq as -> _. apply Forall_cons in Hl as [Ha _]. congruence.
  - injection Heq as -> Heq. apply Forall_cons in Hl as [_ Hl].
    apply Forall_cons in Hl' as [_ Hl'].
    destruct (IH l' x x' c c' Hl Hl' Hc Hc' Heq) as [-> ?]. done.
Qed.

(** A text has one trimmed form. *)
Lemma trimmed_unique s t t' : trimmed s t -> trimmed s t' -> t = t'.
Proof.
  intros (l & r & Hs & Hl & Hr & Hh & Ht) (l' & r' & Hs' & Hl' & Hr' & Hh' & Ht').
  destruct t as [|c u], t' as [|c' u']; [done|..].
  - exfalso. assert (Forall (fun a => isspace a = true) s) as Hall.
    { rewrite Hs. by apply Forall_app. }
    rewrite Hs' in Hall. apply Forall_app in Hall as [_ Hall].
    apply Forall_cons in Hall as [Hc _]. by rewrite (Hh' c' u' eq_refl) in Hc.
  - exfalso. assert (Forall (fun a => isspace a = true) s) as Hall.
    { rewrite Hs'. by apply Forall_app. }
    rewrite Hs in Hall. apply Forall_app in Hall as [_ Hall].
    apply Forall_cons in Hall as [Hc _]. by rewrite (Hh c u eq_refl) in Hc.
  - rewrite Hs in Hs'. simpl in Hs'.
    destruct (first_nonspace l l' (u ++ r) (u' ++ r') c c' Hl Hl'
                (Hh c u eq_refl) (Hh' c' u' eq_refl) Hs') as [_ Heq].
    change (c :: u ++ r) with ((c :: u) ++ r) in Heq.
    change (c' :: u' ++ r') with ((c' :: u') ++ r') in Heq.
    apply (f_equal (@rev char)) in Heq. rewrite !rev_app_distr in Heq.
    destruct (rev (c :: u)) as [|d y] eqn:E.
    { apply (f_equal (@length char)) in E. rewrite length_rev in E. done. }
    destruct (rev (c' :: u')) as [|d' y'] eqn:E'.
    { apply (f_equal (@length char)) in E'. rewrite length_rev in E'. done. }
    assert (c :: u = rev y ++ [d]) as Hd.
    { rewrite <- (rev_involutive (c :: u)), E. done. }
    assert (c' :: u' = rev y' ++ [d']) as Hd'.
    { rewrite <- (rev_involutive (c' :: u')), E'. done. }
    destruct (first_nonspace (rev r) (rev r') y y' d d') as [_ Hy]; auto.
    + by apply Forall_rev.
    + by apply Forall_rev.
    + by apply (Ht d (rev y)).
    + by apply (Ht' d' (rev y')).
    + rewrite Hd, Hd'. by injection Hy as -> ->.
Qed.

(** ** The loop of [extract_contacts] *)

Lemma positional_email emails i :
  (if bool_decide (i < length emails)
   then default unknown (emails !! i) else unknown)
  = default unknown (emails !! i).
Proof.
  case_bool_decide as H; [done|].
  by rewrite lookup_ge_None_2 by lia.
Qed.

Lemma extract_loop_imap emails : forall blocks contacts k,
  extract_loop emails blocks contacts k =
  contacts ++ imap (fun i block => contact_of emails (k + i) block) blocks.
Proof.
  induction blocks as [|block blocks IH]; intros contacts k; simpl.
  - by rewrite app_nil_r.
  - rewrite IH, positional_email, <- app_assoc. simpl.
    rewrite Nat.add_0_r. f_equal. f_equal.
    apply imap_ext. intros i x _. simpl. f_equal. lia.
Qed.

Lemma extract_loop_0 emails blocks :
  extract_loop emails blocks [] 0 = imap (contact_of emails) blocks.
Proof. by rewrite extract_loop_imap. Qed.

Lemma extract_loop_lookup emails blocks i :
  extract_loop emails blocks [] 0 !! i = contact_of emails i <$> blocks !! i.
Proof. by rewrite extract_loop_0, list_lookup_imap. Qed.

(** ** The world: what each step changes *)

Lemma fetch_html_spec url w r :
  remote w (length (requests_log w)) url = r ->
  fetch_html url w =
  (match fetch_error r with Some _ => [] | None => fetch_text r end,
   with_log
     match fetch_error r with
     | Some e => with_dialog w (ustr "錯誤", (ustr "無法獲取網頁內容: ", Some e))
     | None => w
     end [url]).
Proof.
  intros <-.
  unfold fetch_html, requests_get, mbind, M_bind, fetch_error, fetch_text.
  simpl. destruct (remote w (length (requests_log w)) url) as [resp|msg].
  - by destruct (raise_for_status resp).
  - done.
Qed.

Lemma fetch_emails_spec url w r :
  remote w (length (requests_log w)) url = r ->
  fetch_emails_from_ncut url w =
  (match fetch_error r with
   | Some _ => []
   | None => unique_emails (fetch_text r)
   end,
   with_log
     match fetch_error r with
     | Some e => with_print w [(ustr "Error fetching the URL: ", Some e)]
     | None => w
     end [url]).
Proof.
  intros <-.
  unfold fetch_emails_from_ncut, requests_get, mbind, M_bind, fetch_error,
    fetch_text.
  simpl. destruct (remote w (length (requests_log w)) url) as [resp|msg].
  - by destruct (raise_for_status resp).
  - done.
Qed.

(** *** The inserts of a batch *)

Lemma with_table_id w rows :
  database w = Some rows -> with_table w (rows, sqlite_sequence w) = w.
Proof. destruct w. simpl. by intros ->. Qed.

Lemma with_print_nil w : with_print w [] = w.
Proof. destruct w. unfold with_print. simpl. by rewrite app_nil_r. Qed.

Lemma insert_storable c rows seq :
  storable c = true ->
  insert_or_ignore c (Some rows) seq = inr (inserted c (rows, seq)).
Proof.
  intros H. unfold insert_or_ignore, inserted, stored_emails. rewrite H.
  simpl. by case_bool_decide.
Qed.

Lemma insert_not_storable c rows seq :
  storable c = false ->
  insert_or_ignore c (Some rows) seq = inl UnicodeEncodeError.
Proof. intros H. unfold insert_or_ignore. by rewrite H. Qed.

Lemma inserted_stored c rows seq :
  email c ∈ stored_emails rows ->
  inserted c (rows, seq) = (rows, next_iid rows seq).
Proof. intros H. unfold inserted. simpl. by rewrite bool_decide_eq_true_2. Qed.

Lemma inserted_fresh c rows seq :
  email c ∉ stored_emails rows ->
  inserted c (rows, seq) =
    (rows ++ [{| iid := next_iid rows seq; r_name := name c;
                 r_title := title c; r_email := email c |}],
     next_iid rows seq).
Proof. intros H. unfold inserted. simpl. by rewrite bool_decide_eq_false_2. Qed.

Lemma encodable_spec s : encodable s = true <-> no_surrogate s.
Proof.
  unfold encodable, no_surrogate, surrogate.
  rewrite forallb_forall, Forall_forall. split; intros H c Hc.
  - apply list_elem_of_In in Hc. specialize (H c Hc).
    apply negb_true_iff, andb_false_iff in H as [H|H]; apply N.leb_gt in H; lia.
  - apply list_elem_of_In in Hc. specialize (H c Hc).
    apply negb_true_iff, andb_false_iff.
    destruct H as [H|H]; [left|right]; by apply N.leb_gt.
Qed.

Lemma storable_spec contacts :
  forallb storable contacts = true <-> all_encodable contacts.
Proof.
  unfold all_encodable, storable.
  rewrite forallb_forall, Forall_forall. split; intros H c Hc.
  - apply list_elem_of_In in Hc. specialize (H c Hc).
    apply andb_prop in H as [H H3]. apply andb_prop in H as [H1 H2].
    by rewrite <- !encodable_spec.
  - apply list_elem_of_In in Hc. destruct (H c Hc) as (H1 & H2 & H3).
    apply encodable_spec in H1, H2, H3. by rewrite H1, H2, H3.
Qed.

Lemma not_storable_spec contacts :
  forallb storable contacts = false <-> ~ all_encodable contacts.
Proof.
  rewrite <- storable_spec. by destruct (forallb storable contacts).
Qed.

(** With the table and a batch that can be stored, the loop makes the
    inserts and returns. *)
Lemma save_loop_storable contacts : forall w rows,
  database w = Some rows -> forallb storable contacts = true ->
  save_loop contacts w =
    (Returns, with_table w (insert_all contacts (rows, sqlite_sequence w))).
Proof.
  induction contacts as [|c contacts IH]; intros w rows Hw Hs.
  - simpl. by rewrite with_table_id.
  - simpl in Hs. apply andb_prop in Hs as [Hc Hs].
    cbn [save_loop]. unfold mbind, M_bind, get_database, get_sqlite_sequence.
    rewrite Hw, (insert_storable _ _ _ Hc).
    destruct (inserted c (rows, sqlite_sequence w)) as [rows1 seq1] eqn:E.
    simpl. match goal with |- save_loop contacts ?w1 = _ =>
      rewrite (IH w1 rows1 eq_refl Hs) end.
    simpl. unfold insert_all. simpl. by rewrite E.
Qed.

(** With the table, the loop is left at the first contact that cannot be
    stored; nothing was printed. *)
Lemma save_loop_raises contacts : forall w rows,
  database w = Some rows -> forallb storable contacts = false ->
  exists t, save_loop contacts w = (Raises UnicodeEncodeError, with_table w t).
Proof.
  induction contacts as [|c contacts IH]; intros w rows Hw Hs; [done|].
  cbn [save_loop]. unfold mbind, M_bind, get_database, get_sqlite_sequence.
  rewrite Hw. destruct (storable c) eqn:Hc.
  - simpl in Hs. rewrite Hc in Hs. simpl in Hs.
    rewrite (insert_storable _ _ _ Hc).
    destruct (inserted c (rows, sqlite_sequence w)) as [rows1 seq1] eqn:E.
    simpl. match goal with |- context [save_loop contacts ?w1] =>
      destruct (IH w1 rows1 eq_refl Hs) as [t Ht]; rewrite Ht end.
    by exists t.
  - rewrite (insert_not_storable _ _ _ Hc). simpl.
    exists (rows, sqlite_sequence w). by rewrite with_table_id.
Qed.

(** Without the table every insert raises and is reported. *)
Lemma save_loop_no_table contacts : forall w,
  database w = None ->
  save_loop contacts w =
    (Returns, with_print w (replicate (length contacts) no_such_table)).
Proof.
  induction contacts as [|c contacts IH]; intros w Hw.
  - simpl. by rewrite with_print_nil.
  - cbn [save_loop]. unfold mbind, M_bind, get_database, get_sqlite_sequence.
    rewrite Hw. simpl. rewrite IH by done.
    unfold with_print. simpl. by rewrite <- app_assoc.
Qed.

(** [save_to_database], case by case. *)
Lemma save_with_table contacts w rows :
  database w = Some rows ->
  save_to_database contacts w =
    if forallb storable contacts
    then (Returns, with_table w (insert_all contacts (rows, sqlite_sequence w)))
    else (Raises UnicodeEncodeError, w).
Proof.
  intros Hw. unfold save_to_database, mbind, M_bind, get_database,
    get_sqlite_sequence.
  destruct (forallb storable contacts) eqn:Hs.
  - by rewrite (save_loop_storable contacts w rows Hw Hs).
  - destruct (save_loop_raises contacts w rows Hw Hs) as [t ->]. simpl.
    rewrite Hw. f_equal. by apply with_table_id.
Qed.

Lemma save_no_table contacts w :
  database w = None ->
  save_to_database contacts w =
    (Returns, with_print w (replicate (length contacts) no_such_table)).
Proof.
  intros Hw. unfold save_to_database, mbind, M_bind, get_database,
    get_sqlite_sequence.
  by rewrite (save_loop_no_table contacts w Hw).
Qed.

Lemma save_and_display_with_table contacts w rows :
  database w = Some rows ->
  save_and_display contacts w =
    if forallb storable contacts
    then (Returns,
          with_tree
            (with_table w (insert_all contacts (rows, sqlite_sequence w)))
            (fields <$> contacts))
    else (Raises UnicodeEncodeError, w).
Proof.
  intros Hw. unfold save_and_display, mbind, M_bind.
  rewrite (save_with_table contacts w rows Hw).
  by destruct (forallb storable contacts).
Qed.

Lemma save_and_display_no_table contacts w :
  database w = None ->
  save_and_display contacts w =
    (Returns,
     with_tree (with_print w (replicate (length contacts) no_such_table))
               (fields <$> contacts)).
Proof.
  intros Hw. unfold save_and_display, mbind, M_bind.
  by rewrite (save_no_table contacts w Hw).
Qed.

(** [save_to_database] touches the table, its counter and the console
    only. *)
Lemma save_frame contacts w :
  let w' := snd (save_to_database contacts w) in
  url_entry w' = url_entry w /\ remote w' = remote w /\
  requests_log w' = requests_log w /\ tree w' = tree w /\
  dialogs w' = dialogs w /\ stderr w' = stderr w.
Proof.
  destruct (database w) as [rows|] eqn:Hw.
  - rewrite (save_with_table contacts w rows Hw).
    by destruct (forallb storable contacts).
  - by rewrite (save_no_table contacts w Hw).
Qed.

(** *** The rows that the inserts leave *)

Lemma insert_all_cons c contacts t :
  insert_all (c :: contacts) t = insert_all contacts (inserted c t).
Proof. done. Qed.

(** The inserts append rows; afterwards every contact's e-mail is
    stored, and every new row shows a contact of the batch. *)
Lemma insert_all_appends contacts : forall rows seq,
  exists new,
    fst (insert_all contacts (rows, seq)) = rows ++ new /\
    (forall c, c ∈ contacts -> email c ∈ stored_emails (rows ++ new)) /\
    (forall r, r ∈ new -> exists c, c ∈ contacts /\ row_fields r = fields c).
Proof.
  induction contacts as [|c contacts IH]; intros rows seq.
  - exists []. rewrite app_nil_r. repeat split; auto.
    + intros c Hc. by apply elem_of_nil in Hc.
    + intros r Hr. by apply elem_of_nil in Hr.
  - rewrite insert_all_cons.
    destruct (decide (email c ∈ stored_emails rows)) as [Hin|Hin].
    + rewrite (inserted_stored _ _ _ Hin).
      destruct (IH rows (next_iid rows seq)) as (new & Hdb & Hall & Hnew).
      exists new. repeat split; auto.
      * intros c' Hc'. apply elem_of_cons in Hc' as [->|Hc']; [|by apply Hall].
        unfold stored_emails. rewrite fmap_app. apply elem_of_app. by left.
      * intros r Hr. destruct (Hnew r Hr) as (c' & ? & ?).
        exists c'. split; [by right|done].
    + rewrite (inserted_fresh _ _ _ Hin).
      destruct (IH (rows ++ [{| iid := next_iid rows seq; r_name := name c;
                                r_title := title c; r_email := email c |}])
                   (next_iid rows seq)) as (new & Hdb & Hall & Hnew).
      eexists (_ :: new). rewrite <- app_assoc in Hdb, Hall.
      simpl in Hdb, Hall. repeat split; eauto.
      * intros c' Hc'. apply elem_of_cons in Hc' as [->|Hc']; [|by apply Hall].
        unfold stored_emails. rewrite fmap_app. apply elem_of_app. right.
        simpl. left.
      * intros r Hr. apply elem_of_cons in Hr as [->|Hr].
        -- exists c. split; [left|done].
        -- destruct (Hnew r Hr) as (c' & ? & ?). exists c'. split; [by right|done].
Qed.

(** Contacts whose e-mails are all stored leave the rows as they are. *)
Lemma insert_all_stored contacts : forall rows seq,
  (forall c, c ∈ contacts -> email c ∈ stored_emails rows) ->
  fst (insert_all contacts (rows, seq)) = rows.
Proof.
  induction contacts as [|c contacts IH]; intros rows seq Hall; [done|].
  rewrite insert_all_cons, inserted_stored by (apply Hall; left).
  apply IH. intros c' Hc'. apply Hall. by right.
Qed.

Lemma filter_ext_in {A} (P Q : A -> Prop)
    `{!forall x, Decision (P x), !forall x, Decision (Q x)} (l : list A) :
  (forall x, x ∈ l -> (P x <-> Q x)) -> filter P l = filter Q l.
Proof.
  induction l as [|x l IH]; intros Hx; [done|].
  rewrite !filter_cons, IH by (intros y Hy; apply Hx; by right).
  destruct (Hx x (list_elem_of_here _ _)).
  repeat case_decide; tauto.
Qed.

(** Contacts with pairwise different e-mails: the new rows are the
    contacts whose e-mail was not stored, in their order. *)
Lemma insert_all_distinct contacts : forall rows seq,
  NoDup (fmap email contacts) ->
  exists new,
    fst (insert_all contacts (rows, seq)) = rows ++ new /\
    fmap row_fields new =
    fmap fields (filter (fun c => email c ∉ stored_emails rows) contacts).
Proof.
  induction contacts as [|c contacts IH]; intros rows seq Hnd.
  - exists []. by rewrite app_nil_r.
  - apply NoDup_cons in Hnd as [Hc Hnd]. rewrite insert_all_cons.
    destruct (decide (email c ∈ stored_emails rows)) as [Hin|Hin].
    + rewrite (inserted_stored _ _ _ Hin).
      destruct (IH rows (next_iid rows seq) Hnd) as (new & Hdb & Hnew).
      exists new. split; [done|].
      rewrite filter_cons_False; [done|]. intros H. by apply H.
    + rewrite (inserted_fresh _ _ _ Hin).
      destruct (IH (rows ++ [{| iid := next_iid rows seq; r_name := name c;
                                r_title := title c; r_email := email c |}])
                   (next_iid rows seq) Hnd) as (new & Hdb & Hnew).
      eexists (_ :: new). rewrite <- app_assoc in Hdb.
      split; [exact Hdb|].
      rewrite filter_cons_True by done. rewrite !fmap_cons. f_equal.
      rewrite Hnew. f_equal. apply filter_ext_in. intros c' Hc'.
      unfold stored_emails. rewrite fmap_app, elem_of_app, fmap_cons.
      rewrite list_elem_of_singleton. simpl. split; [tauto|].
      intros H [?|Heq]; [done|]. apply Hc. rewrite <- Heq.
      by apply list_elem_of_fmap_2.
Qed.


Lemma filter_length_complement {A} (P : A -> Prop)
    `{!forall x, Decision (P x)} (l : list A) :
  length (filter P l) + length (filter (fun x => ~ P x) l) = length l.
Proof.
  induction l as [|x l IH]; [done|].
  rewrite !filter_cons. repeat case_decide; simpl; try tauto; lia.
Qed.

Lemma save_and_display_frame contacts w :
  let w' := snd (save_and_display contacts w) in
  url_entry w' = url_entry w /\ remote w' = remote w /\
  requests_log w' = requests_log w /\ dialogs w' = dialogs w /\
  stderr w' = stderr w.
Proof.
  destruct (database w) as [rows|] eqn:Hw.
  - rewrite (save_and_display_with_table contacts w rows Hw).
    by destruct (forallb storable contacts).
  - by rewrite (save_and_display_no_table contacts w Hw).
Qed.

(** What a click that got a page leaves in the table and the Treeview. *)
Lemma save_and_display_result contacts w :
  let w' := snd (save_and_display contacts w) in
  match database w with
  | None => database w' = None /\ tree w' = fields <$> contacts
  | Some rows =>
    if forallb storable contacts
    then database w' =
           Some (fst (insert_all contacts (rows, sqlite_sequence w))) /\
         tree w' = fields <$> contacts
    else database w' = Some rows /\ tree w' = tree w
  end.
Proof.
  destruct (database w) as [rows|] eqn:Hw.
  - rewrite (save_and_display_with_table contacts w rows Hw).
    by destruct (forallb storable contacts).
  - by rewrite (save_and_display_no_table contacts w Hw).
Qed.

(** *** One click *)

Lemma click_empty_url w :
  url_entry w = [] ->
  fetch_and_display w =
    (Returns, with_dialog w (ustr "錯誤", (ustr "請輸入有效的 URL！", None))).
Proof.
  intros H. unfold fetch_and_display, mbind, M_bind, url_entry_get.
  by rewrite bool_decide_eq_true_2.
Qed.

Lemma click_fetch_error w e :
  url_entry w <> [] ->
  fetch_error (remote w (length (requests_log w)) (url_entry w)) = Some e ->
  fetch_and_display w =
    (Returns,
     with_log (with_dialog w (ustr "錯誤", (ustr "無法獲取網頁內容: ", Some e)))
              [url_entry w]).
Proof.
  intros Hu He. unfold fetch_and_display, mbind, M_bind, url_entry_get.
  rewrite bool_decide_eq_false_2 by done.
  rewrite (fetch_html_spec _ _ _ eq_refl), He.
  by rewrite bool_decide_eq_true_2.
Qed.

Lemma click_empty_page w :
  url_entry w <> [] ->
  fetch_error (remote w (length (requests_log w)) (url_entry w)) = None ->
  fetch_text (remote w (length (requests_log w)) (url_entry w)) = [] ->
  fetch_and_display w = (Returns, with_log w [url_entry w]).
Proof.
  intros Hu He Ht. unfold fetch_and_display, mbind, M_bind, url_entry_get.
  rewrite bool_decide_eq_false_2 by done.
  rewrite (fetch_html_spec _ _ _ eq_refl), He, Ht.
  by rewrite bool_decide_eq_true_2.
Qed.

Lemma click_page w :
  url_entry w <> [] ->
  fetch_error (remote w (length (requests_log w)) (url_entry w)) = None ->
  fetch_text (remote w (length (requests_log w)) (url_entry w)) <> [] ->
  let html := fetch_text (remote w (length (requests_log w)) (url_entry w)) in
  let r2 := remote w (S (length (requests_log w))) (url_entry w) in
  let emails := match fetch_error r2 with
                | Some _ => []
                | None => unique_emails (fetch_text r2)
                end in
  fetch_html (url_entry w) w = (html, with_log w [url_entry w]) /\
  fetch_emails_from_ncut (url_entry w) (with_log w [url_entry w])
    = (emails, after_fetches w) /\
  fetch_and_display w
    = save_and_display (extract_contacts html emails) (after_fetches w).
Proof.
  intros Hu He Ht html r2 emails.
  assert (fetch_html (url_entry w) w = (html, with_log w [url_entry w])) as H1.
  { by rewrite (fetch_html_spec _ _ _ eq_refl), He. }
  assert (fetch_emails_from_ncut (url_entry w) (with_log w [url_entry w])
          = (emails, after_fetches w)) as H2.
  { erewrite fetch_emails_spec by reflexivity. simpl.
    rewrite length_app, Nat.add_1_r. done. }
  split; [done|]. split; [done|].
  unfold fetch_and_display, mbind, M_bind, url_entry_get.
  rewrite bool_decide_eq_false_2 by done. rewrite H1.
  rewrite bool_decide_eq_false_2 by done. by rewrite H2.
Qed.

Lemma after_fetches_fields w :
  url_entry (after_fetches w) = url_entry w /\
  remote (after_fetches w) = remote w /\
  requests_log (after_fetches w) = requests_log w ++ [url_entry w; url_entry w] /\
  database (after_fetches w) = database w /\
  sqlite_sequence (after_fetches w) = sqlite_sequence w /\
  tree (after_fetches w) = tree w /\
  dialogs (after_fetches w) = dialogs w /\
  stderr (after_fetches w) = stderr w /\
  stdout (after_fetches w) =
    stdout w ++
      match fetch_error (remote w (S (length (requests_log w))) (url_entry w)) with
      | Some e => [(ustr "Error fetching the URL: ", Some e)]
      | None => []
      end.
Proof.
  unfold after_fetches.
  destruct (fetch_error _); simpl; rewrite <- ?app_assoc, ?app_nil_r; done.
Qed.

(** ** Examples *)

(** The entry of Jane Doe with her address on the page. *)
Example jane_contact :
  extract_contacts jane_page (unique_emails jane_page)
  = [{| name := ustr "Jane Doe"; title := ustr "Professor";
        email := ustr "jane@ncut.edu.tw" |}].
Proof. vm_compute. reflexivity. Qed.

(** Addresses are found wherever they stand, once each, in ascending
    order; other domains are left out. *)
Example unique_emails_demo :
  unique_emails (ustr "<p>zoe@ncut.edu.tw, bob@example.org;
 amy.lin@ncut.edu.tw zoe@ncut.edu.tw</p>")
  = [ustr "amy.lin@ncut.edu.tw"; ustr "zoe@ncut.edu.tw"].
Proof. vm_compute. reflexivity. Qed.

(** Two entries make two blocks, and each block is one entry. *)
Example two_blocks :
  teacher_blocks two_entries = [entry "Ann" "Dean"; entry "Bob" "Lecturer"].
Proof. vm_compute. reflexivity. Qed.

(** A first click on a fresh table stores and displays Jane's contact. *)
Example first_click :
  let w := click (fresh_world (ustr "http://x") (steady jane_page)) in
  stored_fields w = [(ustr "Jane Doe", ustr "Professor", ustr "jane@ncut.edu.tw")]
  /\ tree w = stored_fields w
  /\ requests_log w = [ustr "http://x"; ustr "http://x"].
Proof. vm_compute. done. Qed.

(** An ignored insert takes an [iid]: Jane's row is stored with the
    first click, the second click on the same page stores nothing, and
    John's row of the third click gets the third [iid]. *)
Example ignored_insert_takes_an_iid :
  let w := click (click (click (fresh_world (ustr "http://x") then_john))) in
  database w =
    Some [{| iid := 1; r_name := ustr "Jane Doe"; r_title := ustr "Professor";
             r_email := ustr "jane@ncut.edu.tw" |};
          {| iid := 3; r_name := ustr "John"; r_title := ustr "Dean";
             r_email := ustr "john@ncut.edu.tw" |}]
  /\ sqlite_sequence w = 3.
Proof. vm_compute. done. Qed.

(** A value that cannot be encoded undoes the batch: Bob's row, which
    was inserted before the exception, is not stored, and the counter is
    as before. *)
Example unencodable_value_rolls_back :
  let w := snd (put_database (Some ann_stored) (fresh_world [] (steady []))) in
  save_to_database [bob; lone_surrogate; ann] w
    = (Raises UnicodeEncodeError, w).
Proof. vm_compute. done. Qed.

(** A page with such a name: the exception leaves the click, nothing is
    stored or displayed, and in a session Tk reports it. *)
Example unencodable_name_on_the_page :
  let w := fresh_world (ustr "http://x") (steady broken_page) in
  fst (fetch_and_display w) = Raises UnicodeEncodeError /\
  database (click w) = Some [] /\ tree (click w) = [] /\
  stderr (snd (main [Edit (ustr "http://x"); Press] w)) = [UnicodeEncodeError].
Proof. vm_compute. done. Qed.

(** ** The claims *)

(** C9.  A click with an empty address shows the error dialog and does
    nothing else: no request is made, the table, the Treeview and the
    console stay as they were. *)
Theorem empty_address_fails_fast w :
  url_entry w = [] ->
  click w = with_dialog w (ustr "錯誤", (ustr "請輸入有效的 URL！", None)) /\
  dialogs (click w) =
    dialogs w ++ [(ustr "錯誤", (ustr "請輸入有效的 URL！", None))] /\
  requests_log (click w) = requests_log w /\
  database (click w) = database w /\
  tree (click w) = tree w /\
  stdout (click w) = stdout w.
Proof. intros H. unfold click. by rewrite (click_empty_url w H). Qed.

Lemma empty_address_fails_fast_witness :
  let w := fresh_world [] (steady jane_page) in
  url_entry w = [] /\
  dialogs (click w) =
    dialogs w ++ [(ustr "錯誤", (ustr "請輸入有效的 URL！", None))] /\
  requests_log (click w) = requests_log w /\
  database (click w) = database w.
Proof.
  split; [reflexivity|].
  destruct (empty_address_fails_fast (fresh_world [] (steady jane_page)) eq_refl)
    as (_ & Hd & Hl & Hdb & _).
  exact (conj Hd (conj Hl Hdb)).
Defined.



(** C3.  The loop of [extract_contacts] yields one contact per block, in
    the order of the blocks, whatever the e-mails are. *)
Theorem one_contact_per_block html blocks emails :
  length (extract_loop emails blocks [] 0) = length blocks /\
  (fun c => (name c, title c)) <$> extract_loop emails blocks [] 0
    = (fun b => (block_name b, block_title b)) <$> blocks /\
  length (extract_contacts html emails) = length (teacher_blocks html).
Proof.
  unfold extract_contacts. rewrite !extract_loop_0, !length_imap.
  repeat split. rewrite fmap_imap.
  rewrite <- (imap_const (fun b => (block_name b, block_title b))).
  by apply imap_ext.
Qed.

(** C4.  The contact of the block at index [i] carries the e-mail at
    index [i] when there is one, and the sentinel otherwise. *)
Theorem email_is_positional emails blocks i :
  i < length blocks ->
  exists c, extract_loop emails blocks [] 0 !! i = Some c /\
    (i < length emails -> emails !! i = Some (email c)) /\
    (length emails <= i -> email c = unknown).
Proof.
  intros Hi. rewrite extract_loop_lookup.
  destruct (lookup_lt_is_Some_2 blocks i Hi) as [b Hb]. rewrite Hb.
  eexists. split; [done|]. simpl. split.
  - intros H. destruct (lookup_lt_is_Some_2 emails i H) as [e He]. by rewrite He.
  - intros H. by rewrite lookup_ge_None_2.
Qed.

Lemma email_is_positional_witness :
  let blocks := teacher_blocks (two_entries ++ entry "Cy" "Clerk") in
  let emails := [ustr "a@ncut.edu.tw"; ustr "b@ncut.edu.tw"] in
  2 < length blocks /\
  exists c, extract_loop emails blocks [] 0 !! 2 = Some c /\
    (2 < length emails -> emails !! 2 = Some (email c)) /\
    (length emails <= 2 -> email c = unknown).
Proof.
  split.
  - vm_compute. lia.
  - apply (email_is_positional
             [ustr "a@ncut.edu.tw"; ustr "b@ncut.edu.tw"]
             (teacher_blocks (two_entries ++ entry "Cy" "Clerk")) 2).
    vm_compute. lia.
Defined.

(** C5.  The name and the title of a contact are found by two searches
    in its block that do not depend on each other.  The name is the text
    of the first link behind a name container of the block without the
    white space at its two ends: what stands before it and behind it in
    the text of the link is white space, and it neither begins nor ends
    with a white-space character.  It is the sentinel when the block
    holds no name container with a link behind it.  The title is, in the
    same way, the text of the first content container behind a label
    container, or the sentinel when the block holds none.  (For the
    pattern a link is an opening tag that begins with [<a], and its text
    goes up to the first [</a>].)  Every block yields a contact. *)
Theorem name_and_title_independent emails blocks i block :
  blocks !! i = Some block ->
  exists c, extract_loop emails blocks [] 0 !! i = Some c /\
    ((exists pre mid attrs inner post,
        first_name_link block pre mid attrs inner post /\
        trimmed inner (name c)) \/
     (~ has_name_link block /\ name c = unknown)) /\
    ((exists pre m1 m2 ws inner post,
        first_title_field block pre m1 m2 ws inner post /\
        trimmed inner (title c)) \/
     (~ has_title_field block /\ title c = unknown)).
Proof.
  intros Hb. rewrite extract_loop_lookup, Hb. eexists. split; [done|].
  simpl. split.
  - destruct (block_name_first block)
      as [(pre & mid & attrs & inner & post & Hf & ->)|?]; [left|by right].
    exists pre, mid, attrs, inner, post. split; [done|apply strip_spec].
  - destruct (block_title_first block)
      as [(pre & m1 & m2 & ws & inner & post & Hf & ->)|?]; [left|by right].
    exists pre, m1, m2, ws, inner, post. split; [done|apply strip_spec].
Qed.

Lemma name_and_title_independent_witness :
  let blocks := [nameless_entry " Dean "] in
  blocks !! 0 = Some (nameless_entry " Dean ") /\
  exists c, extract_loop [] blocks [] 0 !! 0 = Some c /\
    ((exists pre mid attrs inner post,
        first_name_link (nameless_entry " Dean ") pre mid attrs inner post /\
        trimmed inner (name c)) \/
     (~ has_name_link (nameless_entry " Dean ") /\ name c = unknown)) /\
    ((exists pre m1 m2 ws inner post,
        first_title_field (nameless_entry " Dean ") pre m1 m2 ws inner post /\
        trimmed inner (title c)) \/
     (~ has_title_field (nameless_entry " Dean ") /\ title c = unknown)).
Proof.
  split; [reflexivity|].
  apply (name_and_title_independent [] [nameless_entry " Dean "] 0).
  reflexivity.
Defined.

(** C2, as amended.  [unique_emails] returns, strictly ascending (sorted,
    no element twice), the addresses that a scan of the text from left to
    right finds; each of them is an address that occurs in the text, and
    a text in which no address occurs yields the empty list. *)
Theorem unique_emails_scan text :
  StronglySorted str_lt (unique_emails text) /\
  (exists found, address_scan text found /\
                 forall e, e ∈ unique_emails text <-> e ∈ found) /\
  (forall e, e ∈ unique_emails text -> address e /\ occurs e text) /\
  ((forall e, address e -> ~ occurs e text) -> unique_emails text = []).
Proof.
  pose proof (findall_email_address_scan text) as Hscan.
  assert (forall e, e ∈ unique_emails text -> address e /\ occurs e text) as Hin.
  { intros e He. apply (proj1 (elem_of_sorted_set _ _)) in He.
    exact (address_scan_found _ _ Hscan e He). }
  split; [apply sorted_set_ascending|]. split; [|split; [done|]].
  - exists (findall email_pattern text). split; [done|].
    intros e. unfold unique_emails. apply elem_of_sorted_set.
  - intros Hno. destruct (unique_emails text) as [|e l] eqn:E; [done|].
    destruct (Hin e) as [Ha Ho]; [left|]. by destruct (Hno e Ha).
Qed.

(** C2, as stated, fails: in this text [ncut.edu.tw@ncut.edu.tw] is an
    address that occurs, and it is not returned, since it overlaps the
    address found before it. *)
Lemma unique_emails_not_every_address :
  ~ (forall e, e ∈ unique_emails (ustr "a@ncut.edu.tw@ncut.edu.tw") <->
               address e /\ occurs e (ustr "a@ncut.edu.tw@ncut.edu.tw")).
Proof.
  intros H. destruct (H (ustr "ncut.edu.tw@ncut.edu.tw")) as [_ Hin].
  assert (ustr "ncut.edu.tw@ncut.edu.tw"
            ∈ unique_emails (ustr "a@ncut.edu.tw@ncut.edu.tw")) as Habs.
  { apply Hin. split.
    - exists (ustr "ncut.edu.tw"). split; [reflexivity|]. split; [discriminate|].
      apply Forall_forall. intros c Hc. vm_compute in Hc.
      repeat (apply elem_of_cons in Hc as [->|Hc]; [reflexivity|]).
      by apply elem_of_nil in Hc.
    - exists (ustr "a@"), []. reflexivity. }
  vm_compute in Habs.
  apply elem_of_cons in Habs as [Habs|Habs]; [discriminate|].
  by apply elem_of_nil in Habs.
Qed.

(** C6, as amended.  When there is a table, every value of the batch can
    be encoded, the e-mails of the batch are pairwise different and
    exactly one of its [N] contacts carries an e-mail that is already
    stored, [save_to_database] returns and has appended [N - 1] rows: the
    insert of the duplicate is ignored without an error being printed,
    and the other contacts are stored in their order. *)
Theorem save_skips_the_duplicate contacts w rows :
  database w = Some rows ->
  all_encodable contacts ->
  NoDup (email <$> contacts) ->
  length (filter (fun c => email c ∈ stored_emails rows) contacts) = 1 ->
  exists new,
    fst (save_to_database contacts w) = Returns /\
    database (snd (save_to_database contacts w)) = Some (rows ++ new) /\
    length new = length contacts - 1 /\
    row_fields <$> new =
      fields <$> filter (fun c => email c ∉ stored_emails rows) contacts /\
    stdout (snd (save_to_database contacts w)) = stdout w.
Proof.
  intros Hw Hs Hnd Hone. apply storable_spec in Hs.
  rewrite (save_with_table contacts w rows Hw), Hs.
  destruct (insert_all_distinct contacts rows (sqlite_sequence w) Hnd)
    as (new & Hdb & Hnew).
  exists new. simpl. rewrite Hdb. repeat split; auto.
  pose proof (filter_length_complement
                (fun c => email c ∈ stored_emails rows) contacts) as Hlen.
  rewrite <- (length_fmap row_fields), Hnew, length_fmap.
  cbv beta in Hlen. rewrite Hone in Hlen. simpl in Hlen.
  rewrite <- Hlen. lia.
Qed.

Lemma save_skips_the_duplicate_witness :
  let contacts := extract_contacts two_entries
                    [ustr "ann@ncut.edu.tw"; ustr "bob@ncut.edu.tw"] in
  let w := fresh_world [] (steady []) in
  exists new,
    database (snd (save_to_database contacts
                     (snd (put_database (Some ann_stored) w))))
      = Some (ann_stored ++ new) /\
    length new = length contacts - 1.
Proof.
  destruct (save_skips_the_duplicate
              (extract_contacts two_entries
                 [ustr "ann@ncut.edu.tw"; ustr "bob@ncut.edu.tw"])
              (snd (put_database (Some ann_stored) (fresh_world [] (steady []))))
              ann_stored)
    as (new & _ & Hdb & Hlen & _).
  - reflexivity.
  - apply storable_spec. vm_compute. reflexivity.
  - vm_compute. repeat constructor; intros H;
      repeat (apply elem_of_cons in H as [H|H]; [discriminate|]);
      by apply elem_of_nil in H.
  - vm_compute. reflexivity.
  - exists new. exact (conj Hdb Hlen).
Defined.

(** C6, as stated, fails: of these three contacts only Ann's e-mail is
    stored, and the two others share the sentinel e-mail, so that one row
    is added, not two. *)
Lemma save_shared_email_counterexample :
  let contacts := extract_contacts three_entries [ustr "ann@ncut.edu.tw"] in
  let w := snd (put_database (Some ann_stored) (fresh_world [] (steady []))) in
  length contacts = 3 /\
  length (filter (fun c => email c ∈ stored_emails ann_stored) contacts) = 1 /\
  (length <$> database (snd (save_to_database contacts w))) = Some 2 /\
  ~ (exists new,
       database (snd (save_to_database contacts w)) = Some (ann_stored ++ new) /\
       length new = length contacts - 1).
Proof.
  repeat split; try (vm_compute; reflexivity).
  intros (new & Hdb & Hlen). vm_compute in Hdb, Hlen.
  injection Hdb as <-. discriminate.
Qed.







(** C1.  A second click whose requests get the replies that the requests
    of the first click got leaves the table as the first click left it
    (no row is added), and displays the same contacts. *)
Theorem pipeline_idempotent w :
  let url := url_entry w in
  let w1 := click w in
  (forall j, length (requests_log w) + j < length (requests_log w1) ->
     remote w (length (requests_log w1) + j) url
       = remote w (length (requests_log w) + j) url) ->
  database (click w1) = database w1 /\
  (length <$> database (click w1)) = (length <$> database w1) /\
  tree (click w1) = tree w1.
Proof.
  intros url w1 Hsame.
  assert (database (click w1) = database w1 /\ tree (click w1) = tree w1)
    as [Hd Ht]; [|by rewrite Hd, Ht].
  destruct (decide (url = [])) as [Hu|Hu].
  { subst w1. unfold click. rewrite (click_empty_url w Hu). simpl.
    by rewrite (click_empty_url (with_dialog w _) Hu). }
  destruct (fetch_error (remote w (length (requests_log w)) url))
    as [e|] eqn:He.
  { subst w1. unfold click in *. rewrite (click_fetch_error w e Hu He) in *.
    simpl in Hsame. specialize (Hsame 0). rewrite length_app in Hsame.
    simpl in Hsame. rewrite !Nat.add_0_r in Hsame.
    rewrite (click_fetch_error _ e); [done|done|].
    simpl. rewrite length_app. simpl. fold url. rewrite Hsame by lia. done. }
  destruct (decide (fetch_text (remote w (length (requests_log w)) url) = []))
    as [Hx|Hx].
  { subst w1. unfold click in *. rewrite (click_empty_page w Hu He Hx) in *.
    simpl in Hsame. specialize (Hsame 0). rewrite length_app in Hsame.
    simpl in Hsame. rewrite !Nat.add_0_r in Hsame.
    rewrite click_empty_page; [done|done|..]; simpl; rewrite length_app;
      simpl; fold url; rewrite Hsame by lia; done. }
  destruct (click_page w Hu He Hx) as (_ & _ & Hw1).
  fold url in Hw1.
  match type of Hw1 with
  | _ = save_and_display ?cs _ => set (contacts := cs) in *
  end.
  assert (w1 = snd (save_and_display contacts (after_fetches w))) as Ew1.
  { subst w1. unfold click. by rewrite Hw1. }
  destruct (save_and_display_frame contacts (after_fetches w))
    as (Hu1 & Hr1 & Hl1 & _).
  rewrite <- Ew1 in Hu1, Hr1, Hl1.
  destruct (after_fetches_fields w)
    as (Hau & Har & Hal & Had & _ & Hat & _).
  rewrite Hau in Hu1. rewrite Har in Hr1. rewrite Hal in Hl1. fold url in Hl1.
  assert (length (requests_log w1) = S (S (length (requests_log w)))) as Hlen.
  { rewrite Hl1, length_app. simpl. lia. }
  pose proof (Hsame 0) as H0. pose proof (Hsame 1) as H1.
  rewrite Hlen in H0, H1. rewrite !Nat.add_0_r in H0. rewrite !Nat.add_1_r in H1.
  specialize (H0 ltac:(lia)). specialize (H1 ltac:(lia)).
  assert (url_entry w1 <> []) as Hu' by by rewrite Hu1.
  assert (remote w1 (length (requests_log w1)) (url_entry w1)
          = remote w (length (requests_log w)) url) as Hr.
  { by rewrite Hr1, Hu1, Hlen. }
  assert (remote w1 (S (length (requests_log w1))) (url_entry w1)
          = remote w (S (length (requests_log w))) url) as Hr'.
  { by rewrite Hr1, Hu1, Hlen. }
  pose proof (click_page w1 Hu') as Hw2. cbv zeta in Hw2.
  rewrite Hr, Hr' in Hw2. destruct (Hw2 He Hx) as (_ & _ & Hw2').
  fold contacts in Hw2'. clear Hw2.
  unfold click at 1 2. rewrite Hw2'.
  destruct (after_fetches_fields w1) as (_ & _ & _ & Hbd & _ & Hbt & _).
  pose proof (save_and_display_result contacts (after_fetches w)) as R1.
  pose proof (save_and_display_result contacts (after_fetches w1)) as R2.
  cbv zeta in R1, R2. rewrite <- Ew1 in R1. rewrite Hbd in R2.
  rewrite Had in R1.
  destruct (database w) as [rows|] eqn:Hdb.
  - destruct (forallb storable contacts) eqn:Hs.
    + destruct R1 as [R1 T1]. rewrite R1 in R2 |- *. destruct R2 as [R2 T2].
      rewrite R2, T2, T1. split; [|done]. f_equal.
      destruct (insert_all_appends contacts rows
                  (sqlite_sequence (after_fetches w))) as (new & Hn & Hall & _).
      rewrite Hn. by apply insert_all_stored.
    + destruct R1 as [R1 T1]. rewrite R1 in R2 |- *. destruct R2 as [R2 T2].
      by rewrite R2, T2, Hbt.
  - destruct R1 as [R1 T1]. rewrite R1 in R2 |- *. destruct R2 as [R2 T2].
    by rewrite R2, T2, T1.
Qed.

Lemma pipeline_idempotent_witness :
  let w := fresh_world (ustr "http://x") (steady jane_page) in
  database (click (click w)) = database (click w) /\
  (length <$> database (click (click w))) = (length <$> database (click w)) /\
  tree (click (click w)) = tree (click w).
Proof.
  apply (pipeline_idempotent (fresh_world (ustr "http://x") (steady jane_page))).
  intros j _. reflexivity.
Defined.

(** ** The blocks of a page *)

Lemma has_group_block : has_group block_pattern = false.
Proof. reflexivity. Qed.

Lemma exec_closing s pos m e m' :
  exec closing_pattern s pos m = Some (e, m') ->
  exists ws post,
    closing_at s ws post /\
    e = pos + length (ustr "</div>" ++ ws ++ ustr "</div>") /\ m' = m.
Proof.
  unfold closing_pattern. intros H.
  apply exec_lit_inv in H as (s1 & -> & H).
  apply exec_greedy_inv in H as (ws & s2 & -> & Hws & H).
  apply exec_lit_inv in H as (post & -> & H).
  simpl in H. injection H as <- <-.
  exists ws, post. split; [by split|]. split; [|done].
  by rewrite !length_app, !Nat.add_assoc.
Qed.

Lemma closing_exec s ws post pos m :
  closing_at s ws post -> is_Some (exec closing_pattern s pos m).
Proof.
  intros [-> Hws].
  assert (exists m', matches closing_pattern
            (ustr "</div>" ++ ws ++ ustr "</div>") pos m m') as [m' Hm].
  { eexists. unfold closing_pattern. constructor. constructor; [done|].
    rewrite <- (app_nil_r (ustr "</div>")) at 2. constructor. constructor. }
  pose proof (exec_complete _ _ _ _ _ Hm post) as H.
  by rewrite <- !app_assoc in H.
Qed.

Lemma exec_block s pos m e m' :
  exec block_pattern s pos m = Some (e, m') ->
  exists b rest, s = b ++ rest /\ block_at b rest /\
                 e = pos + length b /\ m' = m.
Proof.
  change block_pattern
    with (Lit (div_class "teacher-list") :: Star Lazy Any :: closing_pattern).
  intros H.
  apply exec_lit_inv in H as (s1 & -> & H).
  apply exec_lazy_inv in H as (mid & s2 & -> & _ & H & Hmin).
  apply exec_closing in H as (ws & post & [-> Hws] & -> & ->).
  exists (div_class "teacher-list" ++ mid ++ ustr "</div>" ++ ws ++ ustr "</div>"),
         post.
  split; [by rewrite <- !app_assoc|]. split; [|split; [|done]].
  - exists mid, ws. repeat split; auto.
    intros j Hj (ws' & post' & Hc).
    eapply closing_exec in Hc as [r Hr]. by rewrite (Hmin j Hj) in Hr.
  - rewrite !length_app. lia.
Qed.

Lemma block_exec s pos m :
  starts_block s -> is_Some (exec block_pattern s pos m).
Proof.
  intros (b & rest & -> & mid & ws & -> & Hws).
  assert (exists m', matches block_pattern
            (div_class "teacher-list" ++ mid ++ ustr "</div>" ++ ws
               ++ ustr "</div>") pos m m') as [m' Hm].
  { eexists. unfold block_pattern. constructor.
    constructor; [by apply Forall_forall|]. constructor. constructor; [done|].
    rewrite <- (app_nil_r (ustr "</div>")) at 2. constructor. constructor. }
  apply (exec_complete _ _ _ _ _ Hm rest).
Qed.

Lemma block_at_shape b rest : block_at b rest -> block_shape b.
Proof. intros (mid & ws & -> & Hws & _). by exists mid, ws. Qed.

Lemma block_shape_nonempty b : block_shape b -> b <> [].
Proof. intros (mid & ws & -> & _). discriminate. Qed.

Lemma findall_block_scan n : forall pre s,
  length s <= n ->
  block_scan s (findall_from block_pattern (pre ++ s) s (length pre) 0).
Proof.
  induction n as [|n IH]; intros pre s Hn.
  - destruct s; [|simpl in Hn; lia]. simpl. constructor.
  - destruct (exec block_pattern s (length pre) []) as [[e m]|] eqn:Hex.
    + pose proof Hex as Hex'.
      apply exec_block in Hex' as (b & rest & -> & Hb & -> & ->).
      pose proof (block_shape_nonempty _ (block_at_shape _ _ Hb)) as Hne.
      rewrite (findall_from_match _ pre b rest [] has_group_block Hne Hex).
      constructor; [done|].
      replace (pre ++ b ++ rest) with ((pre ++ b) ++ rest) by by rewrite app_assoc.
      rewrite <- length_app. apply IH.
      rewrite length_app in Hn. destruct b; [done|simpl in Hn; lia].
    + rewrite (findall_from_nomatch _ _ _ _ Hex).
      destruct s as [|c s]; [constructor|].
      apply bscan_skip.
      { intros Hs. apply (block_exec _ (length pre) []) in Hs as [r Hr].
        congruence. }
      replace (pre ++ c :: s) with ((pre ++ [c]) ++ s) by by rewrite <- app_assoc.
      replace (S (length pre)) with (length (pre ++ [c]))
        by (rewrite length_app; simpl; lia).
      apply IH. simpl in Hn. lia.
Qed.

Lemma teacher_blocks_scan html : block_scan html (teacher_blocks html).
Proof. apply (findall_block_scan (length html) [] html). done. Qed.

Lemma block_scan_found s found :
  block_scan s found -> forall b, b ∈ found -> block_shape b /\ occurs b s.
Proof.
  induction 1 as [|b0 rest found Hb _ IH|c s found _ _ IH]; intros x Hx.
  - by apply elem_of_nil in Hx.
  - apply elem_of_cons in Hx as [->|Hx].
    + split; [by eapply block_at_shape|]. by exists [], rest.
    + destruct (IH _ Hx) as [Ha (pre & post & ->)]. split; [done|].
      exists (b0 ++ pre), post. by rewrite <- app_assoc.
  - destruct (IH _ Hx) as [Ha (pre & post & ->)]. split; [done|].
    by exists (c :: pre), post.
Qed.

(** A scan finds nothing exactly where no block starts anywhere. *)
Lemma block_scan_nil s :
  block_scan s [] <-> forall pre rest, s = pre ++ rest -> ~ starts_block rest.
Proof.
  split.
  - intros H. remember [] as found eqn:Hf.
    induction H as [|b rest found Hb _ IH|c s found Hn _ IH]; [|done|].
    + intros pre rest Heq.
      symmetry in Heq. apply app_eq_nil in Heq as [_ ->].
      intros (b & r & Hb & Hs). symmetry in Hb. apply app_eq_nil in Hb as [-> _].
      by apply block_shape_nonempty in Hs.
    + intros [|x pre] rest Heq; simpl in Heq.
      * by subst rest.
      * injection Heq as -> ->. by eapply IH.
  - induction s as [|c s IH]; intros H; [constructor|].
    apply bscan_skip; [by apply (H [] (c :: s))|].
    apply IH. intros pre rest ->. by apply (H (c :: pre) rest).
Qed.

Lemma block_scan_functional_nil s found :
  block_scan s found -> block_scan s [] -> found = [].
Proof.
  intros H H0. rewrite block_scan_nil in H0.
  induction H as [|b rest found Hb _ IH|c s found Hn _ IH]; [done| |].
  - exfalso. apply (H0 [] (b ++ rest) eq_refl).
    exists b, rest. split; [done|]. by eapply block_at_shape.
  - apply IH. intros pre rest ->. by apply (H0 (c :: pre) rest).
Qed.

Lemma extract_contacts_nil html emails :
  extract_contacts html emails = [] <-> teacher_blocks html = [].
Proof.
  unfold extract_contacts. rewrite extract_loop_0. split.
  - intros H. apply (f_equal length) in H. rewrite length_imap in H.
    by apply nil_length_inv.
  - by intros ->.
Qed.

Lemma teacher_blocks_nil html :
  teacher_blocks html = [] <->
  forall pre rest, html = pre ++ rest -> ~ starts_block rest.
Proof.
  rewrite <- block_scan_nil. split.
  - intros H. rewrite <- H. apply teacher_blocks_scan.
  - intros H. eapply block_scan_functional_nil; [apply teacher_blocks_scan|done].
Qed.

Lemma no_marker_no_block html :
  ~ occurs (div_class "teacher-list") html -> teacher_blocks html = [].
Proof.
  intros Hno. apply teacher_blocks_nil.
  intros pre rest -> (b & r & -> & mid & ws & -> & _).
  apply Hno. exists pre. eexists. by rewrite <- !app_assoc.
Qed.

(** ** [strip] *)

Lemma strip_spaces s :
  Forall (fun c => isspace c = true) s -> strip s = [].
Proof.
  intros Hs. destruct (strip_spec s) as (l & r & Heq & _ & _ & Hh & _).
  destruct (strip s) as [|c t] eqn:E; [done|].
  specialize (Hh c t eq_refl).
  rewrite Heq in Hs. rewrite Forall_app in Hs. destruct Hs as [_ Hs].
  apply Forall_cons in Hs as [Hc _]. congruence.
Qed.

Lemma unknown_no_space : Forall (fun c => isspace c = false) unknown.
Proof. repeat constructor. Qed.

Lemma block_name_trimmed block :
  (forall c t, block_name block = c :: t -> isspace c = false) /\
  (forall c t, block_name block = t ++ [c] -> isspace c = false).
Proof.
  unfold block_name. destruct (search name_pattern block) as [mo|].
  - destruct (strip_spec (group 1 block mo)) as (_ & _ & _ & _ & _ & H1 & H2).
    by split.
  - pose proof unknown_no_space as H. split; intros c t Hc; rewrite Hc in H.
    + by apply Forall_cons in H as [? _].
    + apply Forall_app in H as [_ H]. by apply Forall_cons in H as [? _].
Qed.

Lemma block_title_trimmed block :
  (forall c t, block_title block = c :: t -> isspace c = false) /\
  (forall c t, block_title block = t ++ [c] -> isspace c = false).
Proof.
  unfold block_title. destruct (search title_pattern block) as [mo|].
  - destruct (strip_spec (group 1 block mo)) as (_ & _ & _ & _ & _ & H1 & H2).
    by split.
  - pose proof unknown_no_space as H. split; intros c t Hc; rewrite Hc in H.
    + by apply Forall_cons in H as [? _].
    + apply Forall_app in H as [_ H]. by apply Forall_cons in H as [? _].
Qed.

(** The name of a block, given its first name link. *)
Lemma block_name_of_link block pre mid attrs inner post :
  first_name_link block pre mid attrs inner post ->
  block_name block = strip inner.
Proof.
  intros H. destruct (block_name_first block)
    as [(pre' & mid' & attrs' & inner' & post' & H' & ->)|[Hno _]].
  - by destruct (first_name_link_unique _ _ _ _ _ _ _ _ _ _ _ H H')
      as (_ & _ & _ & -> & _).
  - exfalso. apply Hno. destruct H as [H _].
    by exists pre, mid, attrs, inner, post.
Qed.

Lemma block_title_of_field block pre m1 m2 ws inner post :
  first_title_field block pre m1 m2 ws inner post ->
  block_title block = strip inner.
Proof.
  intros H. destruct (block_title_first block)
    as [(pre' & m1' & m2' & ws' & inner' & post' & H' & ->)|[Hno _]].
  - by destruct (first_title_field_unique _ _ _ _ _ _ _ _ _ _ _ _ _ H H')
      as (_ & _ & _ & _ & -> & _).
  - exfalso. apply Hno. destruct H as [H _].
    by exists pre, m1, m2, ws, inner, post.
Qed.

(** ** The table *)

Lemma iid_below_next rows seq r : r ∈ rows -> iid r < next_iid rows seq.
Proof.
  unfold next_iid. intros Hr.
  assert (iid r <= foldr Nat.max 0 (iid <$> rows)) as H.
  { induction Hr as [r rows|r r' rows _ IH]; rewrite fmap_cons; cbn [foldr].
    - apply Nat.le_max_l.
    - pose proof (Nat.le_max_r (iid r') (foldr Nat.max 0 (iid <$> rows))). lia. }
  pose proof (Nat.le_max_r seq (foldr Nat.max 0 (iid <$> rows))). lia.
Qed.

Lemma next_iid_fresh rows seq : next_iid rows seq ∉ iid <$> rows.
Proof.
  intros H. apply list_elem_of_fmap in H as (r & Heq & Hr).
  apply (iid_below_next rows seq) in Hr. lia.
Qed.

Lemma table_ok_snoc rows seq c :
  table_ok (Some rows) -> email c ∉ stored_emails rows ->
  table_ok (Some (rows ++ [{| iid := next_iid rows seq; r_name := name c;
                              r_title := title c; r_email := email c |}])).
Proof.
  intros [He Hi] Hc. unfold table_ok, stored_emails. rewrite !fmap_app. simpl.
  split; apply NoDup_app; (split; [done|]); split;
    try apply NoDup_singleton; intros x Hx Hx';
    apply list_elem_of_singleton in Hx' as ->; [done|].
  by apply next_iid_fresh in Hx.
Qed.

(** The inserts keep the table well formed. *)
Lemma insert_all_ok contacts : forall rows seq,
  table_ok (Some rows) ->
  table_ok (Some (fst (insert_all contacts (rows, seq)))).
Proof.
  induction contacts as [|c contacts IH]; intros rows seq Hok; [done|].
  rewrite insert_all_cons.
  destruct (decide (email c ∈ stored_emails rows)) as [Hin|Hin].
  - rewrite (inserted_stored _ _ _ Hin). by apply IH.
  - rewrite (inserted_fresh _ _ _ Hin). apply IH. by apply table_ok_snoc.
Qed.

(** The new rows carry e-mails that were not stored, each once. *)
Lemma insert_all_fresh contacts : forall rows seq,
  exists new,
    fst (insert_all contacts (rows, seq)) = rows ++ new /\
    NoDup (r_email <$> new) /\
    forall r, r ∈ new -> r_email r ∉ stored_emails rows.
Proof.
  induction contacts as [|c contacts IH]; intros rows seq.
  - exists []. rewrite app_nil_r. repeat split; auto; [constructor|].
    intros r Hr. by apply elem_of_nil in Hr.
  - rewrite insert_all_cons.
    destruct (decide (email c ∈ stored_emails rows)) as [Hin|Hin].
    + rewrite (inserted_stored _ _ _ Hin). by apply IH.
    + rewrite (inserted_fresh _ _ _ Hin).
      destruct (IH (rows ++ [{| iid := next_iid rows seq; r_name := name c;
                                r_title := title c; r_email := email c |}])
                   (next_iid rows seq)) as (new & Hdb & Hnd & Hfresh).
      eexists (_ :: new). rewrite <- app_assoc in Hdb. split; [exact Hdb|].
      assert (forall r, r ∈ new -> (r_email r ∉ stored_emails rows)
                                    /\ r_email r <> email c) as Hnew.
      { intros r Hr. specialize (Hfresh r Hr). unfold stored_emails in *.
        rewrite fmap_app, elem_of_app in Hfresh. simpl in Hfresh.
        rewrite list_elem_of_singleton in Hfresh. tauto. }
      split.
      * rewrite fmap_cons. apply NoDup_cons. split; [|done]. simpl.
        intros H. apply list_elem_of_fmap in H as (r & Heq & Hr).
        destruct (Hnew r Hr) as [_ Hne]. congruence.
      * intros r Hr. apply elem_of_cons in Hr as [->|Hr]; [done|].
        by apply Hnew.
Qed.

Lemma filter_none {A} (P : A -> Prop) `{!forall x, Decision (P x)} (l : list A) :
  (forall x, x ∈ l -> ~ P x) -> filter P l = [].
Proof.
  induction l as [|x l IH]; intros Hno; [done|].
  rewrite filter_cons_False by (apply Hno; left).
  apply IH. intros y Hy. apply Hno. by right.
Qed.

(** Of the contacts of a batch that carry one fresh e-mail, the first is
    stored. *)
Lemma insert_all_first_of_email l1 : forall c l2 rows seq,
  email c ∉ stored_emails rows ->
  (forall x, x ∈ l1 -> email x <> email c) ->
  exists new,
    fst (insert_all (l1 ++ c :: l2) (rows, seq)) = rows ++ new /\
    row_fields <$> filter (fun r => r_email r = email c) new = [fields c].
Proof.
  induction l1 as [|x l1 IH]; intros c l2 rows seq Hc Hl1.
  - simpl app. rewrite insert_all_cons, (inserted_fresh _ _ _ Hc).
    destruct (insert_all_fresh l2
                (rows ++ [{| iid := next_iid rows seq; r_name := name c;
                             r_title := title c; r_email := email c |}])
                (next_iid rows seq)) as (new & Hdb & _ & Hfresh).
    eexists (_ :: new). rewrite <- app_assoc in Hdb. split; [exact Hdb|].
    rewrite filter_cons_True by done.
    rewrite (filter_none _ new); [done|].
    intros r Hr Heq. apply (Hfresh r Hr). unfold stored_emails.
    rewrite fmap_app, elem_of_app. right. simpl. rewrite Heq. left.
  - assert (email x <> email c) as Hx by (apply Hl1; left).
    assert (forall y, y ∈ l1 -> email y <> email c) as Hl1'
      by (intros y Hy; apply Hl1; by right).
    change ((x :: l1) ++ c :: l2) with (x :: (l1 ++ c :: l2)).
    rewrite insert_all_cons.
    destruct (decide (email x ∈ stored_emails rows)) as [Hin|Hin].
    + rewrite (inserted_stored _ _ _ Hin). by apply IH.
    + rewrite (inserted_fresh _ _ _ Hin).
      destruct (IH c l2
                  (rows ++ [{| iid := next_iid rows seq; r_name := name x;
                               r_title := title x; r_email := email x |}])
                  (next_iid rows seq)) as (new & Hdb & Hf); [|done|].
      { unfold stored_emails. rewrite fmap_app, elem_of_app. simpl.
        rewrite list_elem_of_singleton. intros [?|?]; [done|]. by apply Hx. }
      eexists (_ :: new). rewrite <- app_assoc in Hdb. split; [exact Hdb|].
      rewrite filter_cons_False; [done|]. simpl. done.
Qed.

(** The [iid] of a new row is above those of the rows stored before and
    above the counter, and the counter ends above it. *)
Lemma insert_all_iids contacts : forall rows seq,
  exists new,
    fst (insert_all contacts (rows, seq)) = rows ++ new /\
    (forall r0 r, r0 ∈ rows -> r ∈ new -> iid r0 < iid r) /\
    (forall r, r ∈ new ->
       seq < iid r /\ iid r <= snd (insert_all contacts (rows, seq))) /\
    seq <= snd (insert_all contacts (rows, seq)).
Proof.
  induction contacts as [|c contacts IH]; intros rows seq.
  - exists []. rewrite app_nil_r. repeat split; auto;
      intros; exfalso; eapply elem_of_nil; eauto.
  - rewrite insert_all_cons.
    assert (seq < next_iid rows seq) as Hseq.
    { unfold next_iid.
      pose proof (Nat.le_max_l seq (foldr Nat.max 0 (iid <$> rows))). lia. }
    destruct (decide (email c ∈ stored_emails rows)) as [Hin|Hin].
    + rewrite (inserted_stored _ _ _ Hin).
      destruct (IH rows (next_iid rows seq)) as (new & Hdb & Hlt & Hbt & Hle).
      exists new. split; [done|]. split; [done|]. split; [|lia].
      intros r Hr. destruct (Hbt r Hr). lia.
    + rewrite (inserted_fresh _ _ _ Hin).
      destruct (IH (rows ++ [{| iid := next_iid rows seq; r_name := name c;
                                r_title := title c; r_email := email c |}])
                   (next_iid rows seq)) as (new & Hdb & Hlt & Hbt & Hle).
      eexists (_ :: new). rewrite <- app_assoc in Hdb. split; [exact Hdb|].
      split; [|split; [|lia]].
      * intros r0 r Hr0 Hr. apply elem_of_cons in Hr as [->|Hr].
        -- simpl. by apply iid_below_next.
        -- apply Hlt; [|done]. apply elem_of_app. by left.
      * intros r Hr. apply elem_of_cons in Hr as [->|Hr]; simpl.
        -- lia.
        -- destruct (Hbt r Hr). lia.
Qed.

(** [save_to_database] keeps the table well formed. *)
Lemma save_keeps_ok contacts w :
  table_ok (database w) ->
  table_ok (database (snd (save_to_database contacts w))).
Proof.
  intros Hok. destruct (database w) as [rows|] eqn:Hw.
  - rewrite (save_with_table contacts w rows Hw).
    destruct (forallb storable contacts); simpl; [|by rewrite Hw].
    by apply insert_all_ok.
  - rewrite (save_no_table contacts w Hw). simpl. by rewrite Hw.
Qed.

(** ** Clicks and sessions *)

(** With the table, saving and displaying appends rows, keeps the table
    well formed and prints nothing. *)
Lemma save_and_display_table contacts w rows :
  database w = Some rows ->
  let w' := snd (save_and_display contacts w) in
  (exists new, database w' = Some (rows ++ new)) /\
  stdout w' = stdout w /\
  (table_ok (Some rows) -> table_ok (database w')).
Proof.
  intros Hw. rewrite (save_and_display_with_table contacts w rows Hw).
  destruct (forallb storable contacts); simpl.
  - split; [|split; [done|by apply insert_all_ok]].
    destruct (insert_all_appends contacts rows (sqlite_sequence w))
      as (new & -> & _). by exists new.
  - rewrite Hw. split; [|done]. exists []. by rewrite app_nil_r.
Qed.

(** What one click may change. *)
Lemma click_effects w :
  url_entry (click w) = url_entry w /\ remote (click w) = remote w /\
  (exists urls, requests_log (click w) = requests_log w ++ urls /\
                length urls <= 2 /\ Forall (fun u => u <> []) urls) /\
  (exists ds, dialogs (click w) = dialogs w ++ ds /\ length ds <= 1) /\
  (table_ok (database w) -> table_ok (database (click w))) /\
  (database w = None -> database (click w) = None) /\
  (forall rows, database w = Some rows ->
     (exists new, database (click w) = Some (rows ++ new)) /\
     exists out, stdout (click w) = stdout w ++ out /\
       Forall (fun m => fst m = ustr "Error fetching the URL: ") out).
Proof.
  unfold click.
  destruct (decide (url_entry w = [])) as [Hu|Hu].
  { rewrite (click_empty_url w Hu). simpl. repeat split; auto.
    - exists []. rewrite app_nil_r. repeat split; auto.
    - eexists [_]. split; [done|]. simpl; lia.
    - exists []. by rewrite app_nil_r.
    - exists []. by rewrite app_nil_r. }
  destruct (fetch_error (remote w (length (requests_log w)) (url_entry w)))
    as [e|] eqn:He.
  { rewrite (click_fetch_error w e Hu He). simpl. repeat split; auto.
    - eexists [_]. split; [done|]. split; [simpl; lia|]. by repeat constructor.
    - eexists [_]. split; [done|]. simpl; lia.
    - exists []. by rewrite app_nil_r.
    - exists []. by rewrite app_nil_r. }
  destruct (decide (fetch_text (remote w (length (requests_log w)) (url_entry w))
                    = [])) as [Hx|Hx].
  { rewrite (click_empty_page w Hu He Hx). simpl. repeat split; auto.
    - eexists [_]. split; [done|]. split; [simpl; lia|]. by repeat constructor.
    - exists []. rewrite app_nil_r. split; [done|]. simpl; lia.
    - exists []. by rewrite app_nil_r.
    - exists []. by rewrite app_nil_r. }
  destruct (click_page w Hu He Hx) as (_ & _ & ->).
  match goal with |- context [save_and_display ?cs _] => set (contacts := cs) end.
  destruct (save_and_display_frame contacts (after_fetches w))
    as (Hue & Hr & Hl & Hdi & _).
  destruct (after_fetches_fields w)
    as (Hau & Har & Hal & Had & _ & _ & Hadi & _ & Hao).
  rewrite Hue, Hr, Hl, Hdi, Hau, Har, Hal, Hadi. repeat split; auto.
  - eexists [_; _]. split; [done|]. split; [simpl; lia|]. by repeat constructor.
  - exists []. rewrite app_nil_r. split; [done|]. simpl; lia.
  - intros Hok. destruct (database w) as [rows|] eqn:Hw.
    + by apply (save_and_display_table contacts (after_fetches w) rows).
    + rewrite (save_and_display_no_table contacts _ Had).
      cbn [snd with_tree with_print database]. by rewrite Had.
  - intros Hn. rewrite Hn in Had.
    rewrite (save_and_display_no_table contacts _ Had).
    cbn [snd with_tree with_print database]. done.
  - rewrite H in Had.
    by destruct (save_and_display_table contacts (after_fetches w) rows Had).
  - rewrite H in Had.
    destruct (save_and_display_table contacts (after_fetches w) rows Had)
      as (_ & -> & _).
    rewrite Hao. eexists. split; [done|].
    destruct (fetch_error (remote w (S (length (requests_log w))) (url_entry w)));
      by repeat constructor.
Qed.

(** A press is a click; an exception that leaves it is written on
    [stderr] and changes nothing else. *)
Lemma handle_press w :
  let w' := snd (handle Press w) in
  url_entry w' = url_entry (click w) /\ remote w' = remote (click w) /\
  requests_log w' = requests_log (click w) /\
  database w' = database (click w) /\
  sqlite_sequence w' = sqlite_sequence (click w) /\
  tree w' = tree (click w) /\ dialogs w' = dialogs (click w) /\
  stdout w' = stdout (click w).
Proof.
  unfold handle, click, mbind, M_bind.
  by destruct (fetch_and_display w) as [[|e] w1].
Qed.

Lemma mainloop_effects events : forall w,
  let w' := snd (mainloop events w) in
  remote w' = remote w /\
  (exists urls, requests_log w' = requests_log w ++ urls /\
                length urls <= 2 * presses events /\
                Forall (fun u => u <> []) urls) /\
  (exists ds, dialogs w' = dialogs w ++ ds /\ length ds <= presses events) /\
  (table_ok (database w) -> table_ok (database w')) /\
  (forall rows, database w = Some rows ->
     (exists new, database w' = Some (rows ++ new)) /\
     exists out, stdout w' = stdout w ++ out /\
       Forall (fun m => fst m = ustr "Error fetching the URL: ") out).
Proof.
  induction events as [|ev events IH]; intros w.
  { simpl. repeat split; auto.
    - exists []. rewrite app_nil_r. repeat split; auto.
    - exists []. by rewrite app_nil_r.
    - exists []. by rewrite app_nil_r.
    - exists []. by rewrite app_nil_r. }
  cbn [mainloop presses]. unfold mbind, M_bind. destruct ev as [s|].
  - simpl. match goal with |- context [mainloop events ?w1] =>
      specialize (IH w1); destruct (mainloop events w1) as [[] w2] end.
    simpl in *. exact IH.
  - destruct (click_effects w)
      as (_ & Hr & (u1 & Hl1 & Hn1 & Hf1) & (d1 & Hd1 & Hm1) & Hok1 & _ & Hrows1).
    destruct (handle_press w) as (_ & Hpr & Hpl & Hpd & _ & _ & Hpdi & Hpo).
    rewrite <- Hpr in Hr. rewrite <- Hpl in Hl1. rewrite <- Hpd in Hok1, Hrows1.
    rewrite <- Hpdi in Hd1. rewrite <- Hpo in Hrows1.
    destruct (handle Press w) as [[] w1]. simpl in *.
    specialize (IH w1). destruct (mainloop events w1) as [[] w2]. simpl in *.
    destruct IH as (Hr2 & (u2 & Hl2 & Hn2 & Hf2) & (d2 & Hd2 & Hm2) & Hok2 & Hrows2).
    split; [congruence|]. split; [|split; [|split]].
    + exists (u1 ++ u2). rewrite Hl2, Hl1, <- app_assoc. split; [done|].
      rewrite length_app. split; [lia|]. by apply Forall_app.
    + exists (d1 ++ d2). rewrite Hd2, Hd1, <- app_assoc. split; [done|].
      rewrite length_app. lia.
    + auto.
    + intros rows Hrows.
      destruct (Hrows1 rows Hrows) as ((n1 & Hn) & o1 & Ho1 & Hfo1).
      destruct (Hrows2 _ Hn) as ((n2 & Hn') & o2 & Ho2 & Hfo2).
      split.
      * exists (n1 ++ n2). by rewrite Hn', <- app_assoc.
      * exists (o1 ++ o2). rewrite Ho2, Ho1, <- app_assoc. split; [done|].
        by apply Forall_app.
Qed.

Lemma main_unfold events w :
  snd (main events w) =
  snd (mainloop events
         {| url_entry := []; remote := remote w;
            requests_log := requests_log w;
            database := Some (default [] (database w));
            sqlite_sequence := sqlite_sequence w;
            tree := []; dialogs := dialogs w; stdout := stdout w;
            stderr := stderr w |}).
Proof.
  unfold main, create_database, mbind, M_bind, get_database. simpl.
  destruct (database w) as [rows|] eqn:Hw; simpl; [by rewrite Hw|done].
Qed.

(** ** Further properties of the program *)

(** X1.  [create_database] leaves a table behind, keeps the rows of a
    table that was there, touches nothing else, and changes nothing when
    it is called again. *)
Theorem create_database_is_safe w :
  let w1 := snd (create_database w) in
  database w1 = Some (default [] (database w)) /\
  snd (create_database w1) = w1 /\
  (table_ok (database w) -> table_ok (database w1)) /\
  url_entry w1 = url_entry w /\ requests_log w1 = requests_log w /\
  tree w1 = tree w /\ dialogs w1 = dialogs w /\ stdout w1 = stdout w /\
  sqlite_sequence w1 = sqlite_sequence w /\ stderr w1 = stderr w.
Proof.
  unfold create_database, mbind, M_bind, get_database. simpl.
  destruct w as [u r l [rows|] q t d o e]; simpl; repeat split; auto;
    try tauto; constructor.
Qed.

(** X2.  Without the table [save_to_database] stores nothing: every
    insert raises, one error per contact is printed, no dialog is shown,
    and the table is not created. *)
Theorem save_without_table contacts w :
  database w = None ->
  database (snd (save_to_database contacts w)) = None /\
  stdout (snd (save_to_database contacts w)) =
    stdout w ++ replicate (length contacts)
                  (ustr "資料庫錯誤: ",
                   Some (sqlite3_Error (ustr "no such table: contacts"))) /\
  dialogs (snd (save_to_database contacts w)) = dialogs w.
Proof. intros Hw. by rewrite (save_no_table contacts w Hw). Qed.

Lemma save_without_table_witness :
  let w := bare_world [] (steady []) in
  database (snd (save_to_database [ann; anna] w)) = None /\
  length (stdout (snd (save_to_database [ann; anna] w))) = 2.
Proof.
  destruct (save_without_table [ann; anna] (bare_world [] (steady [])) eq_refl)
    as (Hd & Hs & _).
  split; [exact Hd|]. rewrite Hs. reflexivity.
Defined.

(** X3.  With the table [save_to_database] only appends and prints
    nothing: the rows that were stored stay in place and unchanged, every
    new row shows a contact of the batch whose e-mail was not stored, and
    no e-mail enters twice.  When every value of the batch can be encoded
    the call returns, and afterwards the e-mail of every contact of the
    batch is stored.  When one cannot, [UnicodeEncodeError] leaves the
    call and no row of the batch is stored, not even those that were
    inserted before the exception. *)
Theorem save_only_appends contacts w rows :
  database w = Some rows ->
  exists new,
    database (snd (save_to_database contacts w)) = Some (rows ++ new) /\
    (forall r, r ∈ new ->
       (exists c, c ∈ contacts /\ row_fields r = fields c) /\
       r_email r ∉ stored_emails rows) /\
    NoDup (r_email <$> new) /\
    stdout (snd (save_to_database contacts w)) = stdout w /\
    (all_encodable contacts ->
       fst (save_to_database contacts w) = Returns /\
       forall c, c ∈ contacts -> email c ∈ stored_emails (rows ++ new)) /\
    (~ all_encodable contacts ->
       fst (save_to_database contacts w) = Raises UnicodeEncodeError /\
       new = []).
Proof.
  intros Hw. rewrite (save_with_table contacts w rows Hw).
  destruct (forallb storable contacts) eqn:Hs; simpl.
  - destruct (insert_all_appends contacts rows (sqlite_sequence w))
      as (new & Hdb & Hall & Hfrom).
    destruct (insert_all_fresh contacts rows (sqlite_sequence w))
      as (new' & Hdb' & Hnd & Hfresh).
    rewrite Hdb in Hdb'. apply app_inv_head in Hdb' as <-.
    exists new. rewrite Hdb. repeat split; auto.
    all: apply not_storable_spec in H; by rewrite Hs in H.
  - exists []. rewrite app_nil_r. split; [done|].
    split; [intros r Hr; by apply elem_of_nil in Hr|].
    split; [apply NoDup_nil_2|]. split; [done|].
    split; [intros Henc|done].
    apply storable_spec in Henc. by rewrite Hs in Henc.
Qed.

Lemma save_only_appends_witness :
  exists new,
    database (snd (save_to_database [anna; bob]
                     (snd (put_database (Some ann_stored)
                             (bare_world [] (steady []))))))
      = Some (ann_stored ++ new) /\
    row_fields <$> new = [fields bob].
Proof.
  destruct (save_only_appends [anna; bob]
              (snd (put_database (Some ann_stored) (bare_world [] (steady []))))
              ann_stored eq_refl) as (new & Hdb & _).
  exists new. split; [exact Hdb|].
  vm_compute in Hdb. injection Hdb as <-. reflexivity.
Defined.

(** X4.  A stored row is never updated: contacts whose e-mails are all
    stored leave the table exactly as it is, whatever their names and
    titles are, and nothing is printed. *)
Theorem stored_rows_are_not_updated contacts w rows :
  database w = Some rows ->
  (forall c, c ∈ contacts -> email c ∈ stored_emails rows) ->
  database (snd (save_to_database contacts w)) = Some rows /\
  stdout (snd (save_to_database contacts w)) = stdout w.
Proof.
  intros Hw Hall. rewrite (save_with_table contacts w rows Hw).
  destruct (forallb storable contacts); simpl; [|done].
  by rewrite insert_all_stored.
Qed.

Lemma stored_rows_are_not_updated_witness :
  let w := snd (put_database (Some ann_stored) (bare_world [] (steady []))) in
  database (snd (save_to_database [anna] w)) = Some ann_stored /\
  stdout (snd (save_to_database [anna] w)) = stdout w.
Proof.
  apply (stored_rows_are_not_updated [anna]
           (snd (put_database (Some ann_stored) (bare_world [] (steady []))))
           ann_stored eq_refl).
  intros c Hc. apply list_elem_of_singleton in Hc as ->. vm_compute. left.
Defined.

(** X5.  Saving a batch a second time changes the table no further,
    whatever the batch and the table are. *)
Theorem save_twice contacts w :
  database (snd (save_to_database contacts
                   (snd (save_to_database contacts w))))
  = database (snd (save_to_database contacts w)).
Proof.
  destruct (database w) as [rows|] eqn:Hw.
  - rewrite (save_with_table contacts w rows Hw).
    destruct (forallb storable contacts) eqn:Hs; simpl.
    + destruct (insert_all_appends contacts rows (sqlite_sequence w))
        as (new & Hdb & Hall & _).
      erewrite save_with_table by reflexivity. rewrite Hs. simpl.
      f_equal. rewrite Hdb. by apply insert_all_stored.
    + by rewrite (save_with_table contacts w rows Hw), Hs.
  - rewrite (save_no_table contacts w Hw). simpl.
    by rewrite save_no_table.
Qed.

(** X6.  Of the contacts of a batch that can be stored, those that carry
    one e-mail which is not stored leave one row: the first of them is
    stored and the later ones are ignored. *)
Theorem first_contact_of_an_email_is_stored l1 c l2 w rows :
  database w = Some rows ->
  all_encodable (l1 ++ c :: l2) ->
  email c ∉ stored_emails rows ->
  (forall x, x ∈ l1 -> email x <> email c) ->
  exists new,
    database (snd (save_to_database (l1 ++ c :: l2) w)) = Some (rows ++ new) /\
    row_fields <$> filter (fun r => r_email r = email c) new = [fields c].
Proof.
  intros Hw Hs Hc Hl1. apply storable_spec in Hs.
  rewrite (save_with_table _ w rows Hw), Hs. simpl.
  destruct (insert_all_first_of_email l1 c l2 rows (sqlite_sequence w) Hc Hl1)
    as (new & -> & Hf).
  by exists new.
Qed.

Lemma first_contact_of_an_email_is_stored_witness :
  exists new,
    database (snd (save_to_database ([bob] ++ ann :: [anna])
                     (fresh_world [] (steady [])))) = Some ([] ++ new) /\
    row_fields <$> filter (fun r => r_email r = email ann) new = [fields ann].
Proof.
  apply (first_contact_of_an_email_is_stored [bob] ann [anna]
           (fresh_world [] (steady [])) [] eq_refl).
  - apply storable_spec. reflexivity.
  - intros H. by apply elem_of_nil in H.
  - intros x H. apply list_elem_of_singleton in H as ->. discriminate.
Defined.

(** X7.  [save_to_database] keeps the table as SQLite requires it: when
    no e-mail and no [iid] is stored twice before, none is afterwards;
    and every new row gets an [iid] above those of the rows that were
    stored. *)
Theorem save_keeps_the_table_well_formed contacts w :
  table_ok (database w) ->
  table_ok (database (snd (save_to_database contacts w))) /\
  forall rows, database w = Some rows ->
    exists new,
      database (snd (save_to_database contacts w)) = Some (rows ++ new) /\
      forall r0 r, r0 ∈ rows -> r ∈ new -> iid r0 < iid r.
Proof.
  intros Hok. split; [by apply save_keeps_ok|].
  intros rows Hw. rewrite (save_with_table contacts w rows Hw).
  destruct (forallb storable contacts); simpl.
  - destruct (insert_all_iids contacts rows (sqlite_sequence w))
      as (new & -> & Hlt & _). by exists new.
  - exists []. rewrite app_nil_r. split; [done|].
    intros r0 r _ Hr. by apply elem_of_nil in Hr.
Qed.

Lemma save_keeps_the_table_well_formed_witness :
  let w := snd (put_database (Some ann_stored) (bare_world [] (steady []))) in
  let contacts := extract_contacts three_entries [ustr "ann@ncut.edu.tw"] in
  table_ok (database (snd (save_to_database contacts w))).
Proof.
  apply (save_keeps_the_table_well_formed
           (extract_contacts three_entries [ustr "ann@ncut.edu.tw"])
           (snd (put_database (Some ann_stored) (bare_world [] (steady []))))).
  vm_compute. split; apply NoDup_singleton.
Defined.


Lemma fetch_emails_addresses url w e :
  e ∈ fst (fetch_emails_from_ncut url w) ->
  address e /\
  occurs e (fetch_text (remote w (length (requests_log w)) url)).
Proof.
  rewrite (fetch_emails_spec url w _ eq_refl). simpl.
  destruct (fetch_error _); intros H; [by apply elem_of_nil in H|].
  apply (proj1 (elem_of_sorted_set _ _)) in H.
  by apply (address_scan_found _ _ (findall_email_address_scan _)).
Qed.


(** X10.  A page that is fetched with an empty text is passed over in
    silence: no dialog, nothing printed, no second request, and table and
    Treeview stay as they were. *)
Theorem empty_page_is_ignored w :
  url_entry w <> [] ->
  fetch_error (remote w (length (requests_log w)) (url_entry w)) = None ->
  fetch_text (remote w (length (requests_log w)) (url_entry w)) = [] ->
  click w = with_log w [url_entry w] /\
  dialogs (click w) = dialogs w /\ stdout (click w) = stdout w /\
  database (click w) = database w /\ tree (click w) = tree w /\
  requests_log (click w) = requests_log w ++ [url_entry w].
Proof.
  intros Hu He Hx. unfold click. by rewrite (click_empty_page w Hu He Hx).
Qed.

Lemma empty_page_is_ignored_witness :
  let w := fresh_world (ustr "http://x") (steady []) in
  click w = with_log w [url_entry w] /\
  dialogs (click w) = dialogs w /\ stdout (click w) = stdout w /\
  database (click w) = database w /\ tree (click w) = tree w /\
  requests_log (click w) = requests_log w ++ [url_entry w].
Proof.
  apply (empty_page_is_ignored (fresh_world (ustr "http://x") (steady []))).
  - discriminate.
  - reflexivity.
  - reflexivity.
Defined.

(** X11.  The blocks that [extract_contacts] works on are those that a
    scan of the page from left to right finds: where a teacher-list
    container with two closing tags behind it starts, the text up to the
    first such pair of closing tags is one block and the scan goes on
    behind it.  Every block is such a piece of the page. *)
Theorem teacher_blocks_are_scanned html :
  block_scan html (teacher_blocks html) /\
  forall b, b ∈ teacher_blocks html -> block_shape b /\ occurs b html.
Proof.
  split; [apply teacher_blocks_scan|].
  apply block_scan_found, teacher_blocks_scan.
Qed.

(** X12.  [extract_contacts] returns no contact exactly when no
    teacher-list container with two closing tags behind it starts anywhere
    in the page; in particular when the page does not hold the container
    at all. *)
Theorem no_block_no_contact html emails :
  (extract_contacts html emails = [] <->
   forall pre rest, html = pre ++ rest -> ~ starts_block rest) /\
  (~ occurs (div_class "teacher-list") html ->
   extract_contacts html emails = []).
Proof.
  split.
  - by rewrite extract_contacts_nil, teacher_blocks_nil.
  - intros H. by apply extract_contacts_nil, no_marker_no_block.
Qed.

(** X13.  The name and the title of every contact are trimmed: neither
    begins or ends with a white-space character. *)
Theorem names_and_titles_are_trimmed html emails c :
  c ∈ extract_contacts html emails ->
  (forall x t, name c = x :: t -> isspace x = false) /\
  (forall x t, name c = t ++ [x] -> isspace x = false) /\
  (forall x t, title c = x :: t -> isspace x = false) /\
  (forall x t, title c = t ++ [x] -> isspace x = false).
Proof.
  intros Hc. apply list_elem_of_lookup in Hc as [i Hi].
  unfold extract_contacts in Hi. rewrite extract_loop_lookup in Hi.
  destruct (teacher_blocks html !! i) as [b|]; [|done].
  injection Hi as <-. simpl.
  destruct (block_name_trimmed b), (block_title_trimmed b). done.
Qed.

Lemma names_and_titles_are_trimmed_witness :
  let c := {| name := ustr "Jane Doe"; title := ustr "Professor";
              email := unknown |} in
  c ∈ extract_contacts padded_entry [] /\
  (forall x t, name c = x :: t -> isspace x = false).
Proof.
  assert ({| name := ustr "Jane Doe"; title := ustr "Professor";
             email := unknown |} ∈ extract_contacts padded_entry []) as Hin.
  { vm_compute. left. }
  split; [exact Hin|].
  exact (proj1 (names_and_titles_are_trimmed padded_entry [] _ Hin)).
Defined.

Lemma strip_nil_spaces s :
  strip s = [] -> Forall (fun c => isspace c = true) s.
Proof.
  intros H. destruct (strip_spec s) as (l & r & Heq & Hl & Hr & _).
  rewrite H in Heq. rewrite Heq. by apply Forall_app.
Qed.

(** X14.  A name is empty exactly when the text of the first link of the
    block is blank, and a title is empty exactly when the text of its
    content container is: blank text gives the empty string, not the
    sentinel. *)
Theorem blank_text_gives_empty_field block :
  (block_name block = [] <->
   exists pre mid attrs inner post,
     first_name_link block pre mid attrs inner post /\
     Forall (fun c => isspace c = true) inner) /\
  (block_title block = [] <->
   exists pre m1 m2 ws inner post,
     first_title_field block pre m1 m2 ws inner post /\
     Forall (fun c => isspace c = true) inner).
Proof.
  split; split.
  - intros H. destruct (block_name_first block)
      as [(pre & mid & attrs & inner & post & Hf & Hn)|[_ Hn]].
    + exists pre, mid, attrs, inner, post. split; [done|].
      apply strip_nil_spaces. congruence.
    + rewrite H in Hn. discriminate.
  - intros (pre & mid & attrs & inner & post & Hf & Hs).
    rewrite (block_name_of_link _ _ _ _ _ _ Hf). by apply strip_spaces.
  - intros H. destruct (block_title_first block)
      as [(pre & m1 & m2 & ws & inner & post & Hf & Hn)|[_ Hn]].
    + exists pre, m1, m2, ws, inner, post. split; [done|].
      apply strip_nil_spaces. congruence.
    + rewrite H in Hn. discriminate.
  - intros (pre & m1 & m2 & ws & inner & post & Hf & Hs).
    rewrite (block_title_of_field _ _ _ _ _ _ _ Hf). by apply strip_spaces.
Qed.

(** X15.  Whatever the second request gets, the e-mail of every contact
    that is built with the result of [fetch_emails_from_ncut] is an
    address of the institution or the sentinel. *)
Theorem contact_emails_are_addresses url w html c :
  c ∈ extract_contacts html (fst (fetch_emails_from_ncut url w)) ->
  address (email c) \/ email c = unknown.
Proof.
  intros Hc. apply list_elem_of_lookup in Hc as [i Hi].
  unfold extract_contacts in Hi. rewrite extract_loop_lookup in Hi.
  destruct (teacher_blocks html !! i) as [b|]; [|done].
  injection Hi as <-. simpl.
  destruct (fst (fetch_emails_from_ncut url w) !! i) as [e|] eqn:He;
    [left|by right].
  apply list_elem_of_lookup_2 in He. simpl.
  by apply (fetch_emails_addresses url w).
Qed.



(** X17.  Through a whole session of [main], whatever the user types and
    presses and whatever the network answers, the table exists, stays
    well formed, and only grows: the rows that were on disk at the start
    stay in place and unchanged, and no database error is ever printed. *)
Theorem main_keeps_the_table events w :
  table_ok (database w) ->
  exists rows',
    database (snd (main events w)) = Some rows' /\
    table_ok (Some rows') /\
    (forall rows, database w = Some rows -> exists new, rows' = rows ++ new) /\
    exists out,
      stdout (snd (main events w)) = stdout w ++ out /\
      Forall (fun m => fst m = ustr "Error fetching the URL: ") out.
Proof.
  intros Hok. rewrite main_unfold.
  match goal with |- context [mainloop events ?w0] =>
    destruct (mainloop_effects events w0) as (_ & _ & _ & Hok' & Hrows);
    set (wa := w0) in *
  end.
  destruct (Hrows (default [] (database w)) eq_refl)
    as ((new & Hnew) & out & Hout & Hf).
  exists (default [] (database w) ++ new). split; [done|]. split; [|split].
  - rewrite <- Hnew. apply Hok'. simpl.
    destruct (database w); simpl; [done|]. split; constructor.
  - intros rows Hr. rewrite Hr. by exists new.
  - by exists out.
Qed.

Lemma main_keeps_the_table_witness :
  exists rows',
    database (snd (main [Edit (ustr "http://x"); Press; Press]
                     (bare_world [] (steady jane_page)))) = Some rows' /\
    table_ok (Some rows').
Proof.
  destruct (main_keeps_the_table [Edit (ustr "http://x"); Press; Press]
              (bare_world [] (steady jane_page)) I)
    as (rows' & Hdb & Hok & _).
  exists rows'. exact (conj Hdb Hok).
Defined.

(** X18.  In a session of [main] every request and every dialog comes
    from a press of the button: at most two requests and at most one
    dialog per press, and never a request for the empty address. *)
Theorem main_requests_come_from_presses events w :
  exists urls ds,
    requests_log (snd (main events w)) = requests_log w ++ urls /\
    length urls <= 2 * presses events /\
    Forall (fun u => u <> []) urls /\
    dialogs (snd (main events w)) = dialogs w ++ ds /\
    length ds <= presses events.
Proof.
  rewrite main_unfold.
  match goal with |- context [mainloop events ?w0] =>
    destruct (mainloop_effects events w0)
      as (_ & (urls & Hl & Hn & Hf) & (ds & Hd & Hm) & _)
  end.
  by exists urls, ds.
Qed.

Lemma occurs_trans a b c : occurs a b -> occurs b c -> occurs a c.
Proof.
  intros (p1 & q1 & ->) (p2 & q2 & ->).
  exists (p2 ++ p1), (q1 ++ q2). by rewrite <- !app_assoc.
Qed.

Lemma strip_occurs s : occurs (strip s) s.
Proof. destruct (strip_spec s) as (l & r & Heq & _). by exists l, r. Qed.

Lemma block_name_occurs block :
  block_name block = unknown \/ occurs (block_name block) block.
Proof.
  destruct (block_name_first block)
    as [(pre & mid & attrs & inner & post & [[Hb _] _] & ->)|[_ ->]];
    [right|by left].
  apply (occurs_trans _ inner); [apply strip_occurs|].
  exists (pre ++ div_class "member_name" ++ mid ++ ustr "<a" ++ attrs ++ ustr ">"),
         (ustr "</a>" ++ post).
  by rewrite Hb, <- !app_assoc.
Qed.

Lemma block_title_occurs block :
  block_title block = unknown \/ occurs (block_title block) block.
Proof.
  destruct (block_title_first block)
    as [(pre & m1 & m2 & ws & inner & post & [[Hb _] _] & ->)|[_ ->]];
    [right|by left].
  apply (occurs_trans _ inner); [apply strip_occurs|].
  exists (pre ++ div_class "member_info_title" ++ m1 ++ ustr "職稱" ++ m2
            ++ ustr "</div>" ++ ws ++ div_class "member_info_content"),
         (ustr "</div>" ++ post).
  by rewrite Hb, <- !app_assoc.
Qed.

(** X19.  Nothing is made up: the name and the title of a contact are
    the sentinel or a piece of the text of the page, taken from the
    contact's own block. *)
Theorem names_and_titles_come_from_the_page html emails i c :
  extract_contacts html emails !! i = Some c ->
  exists block,
    teacher_blocks html !! i = Some block /\ occurs block html /\
    (name c = unknown \/ occurs (name c) block) /\
    (title c = unknown \/ occurs (title c) block).
Proof.
  unfold extract_contacts. rewrite extract_loop_lookup.
  destruct (teacher_blocks html !! i) as [b|] eqn:Hb; [|done].
  intros [= <-]. exists b. split; [done|]. split.
  - apply list_elem_of_lookup_2 in Hb.
    by apply (block_scan_found _ _ (teacher_blocks_scan html)).
  - simpl. split; [apply block_name_occurs|apply block_title_occurs].
Qed.

Lemma names_and_titles_come_from_the_page_witness :
  exists block,
    teacher_blocks padded_entry !! 0 = Some block /\
    occurs block padded_entry /\
    (ustr "Jane Doe" = unknown \/ occurs (ustr "Jane Doe") block).
Proof.
  destruct (names_and_titles_come_from_the_page padded_entry [] 0
              {| name := ustr "Jane Doe"; title := ustr "Professor";
                 email := unknown |})
    as (block & Hb & Ho & Hn & _).
  - vm_compute. reflexivity.
  - exists block. exact (conj Hb (conj Ho Hn)).
Defined.

Lemma contact_emails_are_addresses_witness :
  let w := fresh_world (ustr "http://x") (steady jane_page) in
  let c := {| name := ustr "Jane Doe"; title := ustr "Professor";
              email := ustr "jane@ncut.edu.tw" |} in
  c ∈ extract_contacts jane_page (fst (fetch_emails_from_ncut (url_entry w) w))
  /\ (address (email c) \/ email c = unknown).
Proof.
  assert ({| name := ustr "Jane Doe"; title := ustr "Professor";
             email := ustr "jane@ncut.edu.tw" |}
            ∈ extract_contacts jane_page
                (fst (fetch_emails_from_ncut (ustr "http://x")
                        (fresh_world (ustr "http://x") (steady jane_page)))))
    as Hin.
  { vm_compute. left. }
  split; [exact Hin|].
  exact (contact_emails_are_addresses _ _ _ _ Hin).
Defined.
